(** * weiqi.js: the board of src/lib/board.js

    A shallow embedding of the rules core of weiqi.js (points, adjacency,
    group search, [play], [areaScore]) and the properties of its
    specification.

    Immutable.js values are modelled with stdpp: [Immutable.Map] keyed by
    [Point] records (which compare by value) is a [gmap Point Color],
    [Immutable.Set] is a [gset Point], [Immutable.List] is a [list].
    JavaScript numbers that the code only uses as integers are [Z]. *)

From Stdlib Require Import ZArith List Lia.
From stdpp Require Import base decidable option list list_monad strings gmap fin_sets fin_maps relations.

Local Open Scope Z_scope.

(** ** Data model *)

(** Modelled from the spec: [./constants] is imported by board.js but is not
    among the sources. The spec gives [Color] as the enumeration
    EMPTY, BLACK, WHITE; the three constants are pairwise distinct values
    compared with [==] and [!=]. *)
Inductive Color : Set := EMPTY | BLACK | WHITE.

#[global] Instance Color_eq_dec : EqDecision Color.
Proof. solve_decision. Defined.

(** [class Point extends Immutable.Record({i: 0, j: 0})]. *)
Record Point : Set := mkPoint { i : Z; j : Z }.

#[global] Instance Point_eq_dec : EqDecision Point.
Proof. solve_decision. Defined.

#[global] Instance Point_countable : Countable Point.
Proof.
  refine (inj_countable' (λ p, (i p, j p)) (λ c, mkPoint c.1 c.2) _).
  by intros [].
Defined.

(** The three strings thrown by board.js, under the names of the spec. *)
Inductive Error : Set := InvalidSize | OutOfBounds | IntersectionOccupied.

#[global] Instance Error_eq_dec : EqDecision Error.
Proof. solve_decision. Defined.

(** Outcome of a call that may [throw]. [Diverged] is the outcome of a group
    search that used up its recursion budget; it is shown below never to
    happen. *)
Inductive result (A : Type) : Type :=
| Ok (a : A)
| Throw (e : Error)
| Diverged.
Arguments Ok {A} a.
Arguments Throw {A} e.
Arguments Diverged {A}.

(** The value returned by [getGroup]: an [Immutable.Map] with the three keys
    'liberties', 'stones' and 'surrounding'. *)
Record Group : Type := mkGroup {
  liberties : nat;
  stones : gset Point;
  surrounding : gmap Point Color
}.

#[global] Instance Group_eq_dec : EqDecision Group.
Proof. solve_decision. Defined.

(** The object returned by [createBoard] closes over [size] and [stones]. *)
Record Board : Type := mkBoard {
  board_size : Z;
  board_stones : gmap Point Color
}.

(** [score] in [areaScore]: an object with the keys BLACK and WHITE. *)
Record Score : Set := mkScore { score_BLACK : Z; score_WHITE : Z }.

(** ** Operations *)

Definition inBounds (size : Z) (point : Point) : bool :=
  (0 <=? i point) && (i point <? size) && (0 <=? j point) && (j point <? size).

Definition getStone (stns : gmap Point Color) (coords : Point) : Color :=
  default EMPTY (stns !! coords).

Definition replaceStone (stns : gmap Point Color) (coords : Point) (value : Color)
  : gmap Point Color :=
  <[coords := value]> stns.

Definition deltas : list Point :=
  [mkPoint (-1) 0; mkPoint 0 1; mkPoint 1 0; mkPoint 0 (-1)].

Definition getAdjacentIntersections (size : Z) (coords : Point) : list Point :=
  let addPair := λ vec, mkPoint (i vec + i coords) (j vec + j coords) in
  filter (λ coord, inBounds size coord = true) (map addPair deltas).

(** [Immutable.Range(0, size)]. *)
Definition Range0 (size : Z) : list Z :=
  map Z.of_nat (seq 0 (Z.to_nat size)).

Definition allPositions (size : Z) : list Point :=
  let range := Range0 size in
  flat_map (λ a, map (λ b, mkPoint a b) range) range.

Section getGroup.
Variable stns : gmap Point Color.
Variable size : Z.
Variable color : Color.

(** The body of [neighbors.forEach] in [search]: a neighbour of the seed's
    colour is pushed on the queue, any other one is recorded in
    [surrounding]. *)
Definition visitNeighbor (acc : list Point * gmap Point Color) (n : Point)
  : list Point * gmap Point Color :=
  let state := getStone stns n in
  if decide (state = color) then (acc.1 ++ [n], acc.2)
  else (acc.1, <[n := state]> acc.2).

(** The inner function [search]. The recursion of the source is not
    structural; [fuel] bounds the number of calls. *)
Fixpoint search (fuel : nat) (visited : gset Point) (queue : list Point)
    (surr : gmap Point Color) : option (gset Point * gmap Point Color) :=
  match fuel with
  | O => None
  | S fuel =>
      match queue with
      | [] => Some (visited, surr)
      | stone :: queue =>
          if decide (stone ∈ visited) then search fuel visited queue surr
          else
            let neighbors := getAdjacentIntersections size stone in
            let acc := fold_left visitNeighbor neighbors (queue, surr) in
            search fuel ({[stone]} ∪ visited) acc.1 acc.2
      end
  end.
End getGroup.

(** Calls of [search] allowed to one [getGroup]: every call either drops a
    queue entry or visits a new point, and a visit pushes at most four
    entries. *)
Definition searchFuel (size : Z) : nat :=
  (5 * (Z.to_nat size * Z.to_nat size) + 7)%nat.

Definition getGroup (stns : gmap Point Color) (size : Z) (coords : Point)
  : option Group :=
  let color := getStone stns coords in
  match search stns size color (searchFuel size) ∅ [coords] ∅ with
  | None => None
  | Some (visited, surr) =>
      let libs := filter (λ kv, kv.2 = EMPTY) surr in
      Some (mkGroup (base.size libs) visited surr)
  end.

(** [createBoard(size, stones)]. An argument that is [undefined] is [None]. *)
Definition createBoard (size : option Z) (stns : option (gmap Point Color))
  : result Board :=
  match size with
  | None => Throw InvalidSize
  | Some size =>
      if size <? 0 then Throw InvalidSize
      else
        let stns := match stns with None => ∅ | Some s => s end in
        Ok (mkBoard size stns)
  end.

(** The text of each [throw]. *)
Definition thrown (e : Error) : string :=
  match e with
  | InvalidSize => "Size must be an integer greater than zero"
  | OutOfBounds => "Intersection out of bounds"
  | IntersectionOccupied => "Intersection occupied by existing stone"
  end.

(** The method [Board.getStone]; [coords] is the array [[row, col]]. *)
Definition Board_getStone (B : Board) (coords : Z * Z) : Color :=
  getStone (board_stones B) (mkPoint coords.1 coords.2).

Definition getSize (B : Board) : Z := board_size B.

(** *** play *)

Definition opponentColor (color stoneColor : Color) : bool :=
  bool_decide (stoneColor ≠ color) && bool_decide (stoneColor ≠ EMPTY).

Definition isDead (group : Group) : bool :=
  bool_decide (liberties group = 0%nat).

(** [neighborColors] is an [Immutable.Map] built from at most four pairs with
    distinct keys; it is kept as the list of its entries, in the order of
    [neighbors]. Nothing below depends on that order but the order of the
    entries of [captured]. *)
Definition neighborColors (newBoard : gmap Point Color) (size : Z) (coords : Point)
  : list (Point * Color) :=
  map (λ n, (n, getStone newBoard n)) (getAdjacentIntersections size coords).

(** The sequence [captured] before the suicide test: the group of every
    neighbour of the opponent's colour, for the groups without liberty. *)
Definition capturedGroups (color : Color) (newBoard : gmap Point Color)
    (size : Z) (coords : Point) : option (list Group) :=
  groups ← mapM (λ kv : Point * Color, getGroup newBoard size kv.1)
             (filter (λ kv, opponentColor color kv.2 = true)
                     (neighborColors newBoard size coords));
  Some (filter (λ g, isDead g = true) groups).

(** [captured.flatMap(g => g.get('stones')).reduce(..., newBoard)]. *)
Definition removeStones (captured : list Group) (newBoard : gmap Point Color)
  : gmap Point Color :=
  fold_left (λ acc stone, replaceStone acc stone EMPTY)
            (flat_map (λ g, elements (stones g)) captured) newBoard.

(** [captured] after the suicide test. *)
Definition finalCaptured (captured : list Group) (newGroup : Group) : list Group :=
  if bool_decide (captured = []) && isDead newGroup then [newGroup] else captured.

Definition play (B : Board) (color : Color) (coords : Z * Z) : result Board :=
  let size := board_size B in
  let stns := board_stones B in
  let coords := mkPoint coords.1 coords.2 in
  if negb (inBounds size coords) then Throw OutOfBounds
  else if decide (getStone stns coords ≠ EMPTY) then Throw IntersectionOccupied
  else
    let newBoard := replaceStone stns coords color in
    match capturedGroups color newBoard size coords,
          getGroup newBoard size coords with
    | Some captured, Some newGroup =>
        let captured := finalCaptured captured newGroup in
        createBoard (Some size) (Some (removeStones captured newBoard))
    | _, _ => Diverged
    end.

(** *** areaScore *)

#[global] Instance Color_countable : Countable Color.
Proof.
  refine (inj_countable'
            (λ c, match c with EMPTY => 0%nat | BLACK => 1%nat | WHITE => 2%nat end)
            (λ n, match n with O => EMPTY | S O => BLACK | _ => WHITE end) _).
  by intros [].
Defined.

(** [score[c] += n]. The object [score] has the keys BLACK and WHITE only;
    an update at any other key leaves these two entries as they are. *)
Definition addScore (score : Score) (c : Color) (n : Z) : Score :=
  match c with
  | BLACK => mkScore (score_BLACK score + n) (score_WHITE score)
  | WHITE => mkScore (score_BLACK score) (score_WHITE score + n)
  | EMPTY => score
  end.

(** [group.get('surrounding').valueSeq().toSet()]. *)
Definition surroundingColors (group : Group) : gset Color :=
  list_to_set (map snd (map_to_list (surrounding group))).

(** The callback of [positions.forEach], on the variables [visited] and
    [score] that it updates. *)
Definition scoreStep (stns : gmap Point Color) (size : Z)
    (acc : gset Point * Score) (coords : Point) : option (gset Point * Score) :=
  let '(visited, score) := acc in
  if decide (coords ∈ visited) then Some (visited, score)
  else
    let state := getStone stns coords in
    group ← getGroup stns size coords;
    let groupStones := stones group in
    let colors := surroundingColors group in
    let score :=
      if decide (state = EMPTY) then
        if decide (base.size colors = 1%nat) then
          match elements colors with
          | c :: _ => addScore score c (Z.of_nat (base.size groupStones))
          | [] => score
          end
        else score
      else addScore score state (Z.of_nat (base.size groupStones)) in
    Some (visited ∪ groupStones, score).

(** [positions.forEach(...)]. *)
Fixpoint forEachPosition (stns : gmap Point Color) (size : Z)
    (positions : list Point) (acc : gset Point * Score)
  : option (gset Point * Score) :=
  match positions with
  | [] => Some acc
  | coords :: positions =>
      acc ← scoreStep stns size acc coords;
      forEachPosition stns size positions acc
  end.

Definition areaScore (B : Board) : option Score :=
  let positions := allPositions (board_size B) in
  acc ← forEachPosition (board_stones B) (board_size B) positions
         (∅, mkScore 0 0);
  Some acc.2.

(** *** The other accessors *)

(** The method [getIntersections]: the rows of the grid, as nested
    sequences. *)
Definition getIntersections (B : Board) : list (list Color) :=
  let range := Range0 (board_size B) in
  map (λ a, map (λ b, getStone (board_stones B) (mkPoint a b)) range) range.

(** The method [toArray]: [getIntersections().toJS()], the same rows as
    nested arrays. *)
Definition toArray (B : Board) : list (list Color) := getIntersections B.

(** The method [getStones]: the keys bound to [color], as arrays [[i, j]].
    The source lists them in the order in which [Immutable.Map] iterates its
    keys; the model lists them in the order of [map_to_list], and nothing is
    stated about the order. *)
Definition getStones (B : Board) (color : Color) : list (Z * Z) :=
  map (λ point : Point, (i point, j point))
      (map fst (map_to_list (filter (λ kv : Point * Color, kv.2 = color)
                                    (board_stones B)))).

(** A sequence of moves, each played on the board the previous one
    returned. *)
Fixpoint playAll (B : Board) (moves : list (Color * (Z * Z))) : result Board :=
  match moves with
  | [] => Ok B
  | (color, coords) :: moves =>
      match play B color coords with
      | Ok B' => playAll B' moves
      | Throw e => Throw e
      | Diverged => Diverged
      end
  end.

(** ** Vocabulary of the properties *)

(** *** Points and groups *)

(** Orthogonal adjacency of two points of the grid. *)
Definition orthogonal (p q : Point) : Prop :=
  (i q = i p ∧ (j q = j p + 1 ∨ j q = j p - 1)) ∨
  (j q = j p ∧ (i q = i p + 1 ∨ i q = i p - 1)).

(** [b] is reached from [a] by orthogonal steps that stay inside [S]. *)
Definition connectedIn (S : gset Point) (a b : Point) : Prop :=
  rtc (λ x y, y ∈ S ∧ orthogonal x y) a b.

(** The intersections of a board of the given size, as a set. *)
Definition boardPoints (size : Z) : gset Point :=
  list_to_set (allPositions size).

(** [link x y]: [y] is an intersection next to [x] that holds [color]. A
    group is what [link] reaches from the seed. *)
Definition link (stns : gmap Point Color) (size : Z) (color : Color)
    (x y : Point) : Prop :=
  y ∈ getAdjacentIntersections size x ∧ getStone stns y = color.

Definition connected (stns : gmap Point Color) (size : Z) (seed x : Point) : Prop :=
  rtc (link stns size (getStone stns seed)) seed x.

(** What a group found from [seed] is: its stones are the points connected
    to the seed, [surrounding] maps every other neighbour of a member to its
    colour, and [liberties] counts the entries of [surrounding] that are
    EMPTY. *)
Record groupSpec (stns : gmap Point Color) (size : Z) (seed : Point)
    (g : Group) : Prop := mkGroupSpec {
  gs_stones : ∀ x, x ∈ stones g ↔ connected stns size seed x;
  gs_surrounding : ∀ n c, surrounding g !! n = Some c ↔
      (∃ x, x ∈ stones g ∧ n ∈ getAdjacentIntersections size x)
      ∧ getStone stns n ≠ getStone stns seed ∧ c = getStone stns n;
  gs_liberties :
    liberties g = base.size (filter (λ kv : Point * Color, kv.2 = EMPTY) (surrounding g))
}.

(** *** The search *)

(** Termination measure of [search]: five for every intersection not yet
    visited, and for every queue entry one if it is on the board and six
    otherwise (only the seed can be off the board). *)
Definition queueWeight (size : Z) (queue : list Point) : nat :=
  sum_list_with (λ x, if inBounds size x then 1%nat else 6%nat) queue.

Definition searchMeasure (size : Z) (visited : gset Point) (queue : list Point)
  : nat :=
  (5 * base.size (boardPoints size ∖ visited) + queueWeight size queue)%nat.

(** What [search] maintains, for a search started at [seed]. *)
Record searchInv (stns : gmap Point Color) (size : Z) (color : Color)
    (seed : Point) (visited : gset Point) (queue : list Point)
    (surr : gmap Point Color) : Prop := mkSearchInv {
  inv_reach : ∀ x, x ∈ visited ∨ x ∈ queue → rtc (link stns size color) seed x;
  inv_closed : ∀ x n, x ∈ visited → link stns size color x n →
                      n ∈ visited ∨ n ∈ queue;
  inv_seed : seed ∈ visited ∨ seed ∈ queue;
  inv_surr : ∀ n c, surr !! n = Some c ↔
                    (∃ x, x ∈ visited ∧ n ∈ getAdjacentIntersections size x)
                    ∧ getStone stns n ≠ color ∧ c = getStone stns n
}.

(** *** Captures *)

(** The neighbours of the played point that hold the opponent's colour, and
    those of them whose group has no liberty, on the board [stns] that
    already holds the played stone. *)
Definition opponentNeighbors (color : Color) (stns : gmap Point Color)
    (size : Z) (coords : Point) : list Point :=
  filter (λ n, opponentColor color (getStone stns n) = true)
         (getAdjacentIntersections size coords).

Definition deadNeighbors (color : Color) (stns : gmap Point Color)
    (size : Z) (coords : Point) : list Point :=
  filter (λ n, isDead <$> getGroup stns size n = Some true)
         (opponentNeighbors color stns size coords).

(** [g] is the group of a neighbour of [coords] of the opponent's colour, and
    has no liberty. *)
Definition deadNeighborGroup (color : Color) (stns : gmap Point Color)
    (size : Z) (coords : Point) (g : Group) : Prop :=
  ∃ n, n ∈ getAdjacentIntersections size coords
       ∧ opponentColor color (getStone stns n) = true
       ∧ getGroup stns size n = Some g
       ∧ liberties g = 0%nat.

(** The points at which the moves were played. *)
Definition playedPoints (moves : list (Color * (Z * Z))) : gset Point :=
  list_to_set (map (λ m : Color * (Z * Z), mkPoint m.2.1 m.2.2) moves).

(** *** Regions of the score *)

(** The groups that the loop of [areaScore] computes, each with the position
    it was computed from, in the order of the loop. *)
Fixpoint discoveredRegions (stns : gmap Point Color) (size : Z)
    (positions : list Point) (visited : gset Point) : list (Point * Group) :=
  match positions with
  | [] => []
  | coords :: positions =>
      if decide (coords ∈ visited)
      then discoveredRegions stns size positions visited
      else
        match getGroup stns size coords with
        | Some g =>
            (coords, g) :: discoveredRegions stns size positions (visited ∪ stones g)
        | None => []
        end
  end.

Definition regions (B : Board) : list (Point * Group) :=
  discoveredRegions (board_stones B) (board_size B)
                    (allPositions (board_size B)) ∅.

(** The points of a list of regions, and the size of a region. *)
Definition regionStones (regs : list (Point * Group)) : gset Point :=
  ⋃ (map (λ r : Point * Group, stones r.2) regs).

Definition regionSize (r : Point * Group) : Z :=
  Z.of_nat (base.size (stones r.2)).

(** What a region found from [r.1] gives to the colour [c]: an empty region
    gives its size to the one colour of its [surrounding], if there is
    exactly one; a group of stones gives its size to its own colour. *)
Definition contribution (stns : gmap Point Color) (c : Color)
    (r : Point * Group) : Z :=
  if decide (getStone stns r.1 = EMPTY) then
    if decide (surroundingColors r.2 = {[c]}) then regionSize r else 0
  else if decide (getStone stns r.1 = c) then regionSize r else 0.

(** An empty region that is neutral or contested: its [surrounding] does not
    show exactly one colour. *)
Definition neutral (stns : gmap Point Color) (r : Point * Group) : Prop :=
  getStone stns r.1 = EMPTY ∧ base.size (surroundingColors r.2) ≠ 1%nat.

(** [score[c]] for the two keys of the object. *)
Definition scoreOf (c : Color) (s : Score) : Z :=
  match c with
  | BLACK => score_BLACK s
  | WHITE => score_WHITE s
  | EMPTY => 0
  end.

Definition sumZ (l : list Z) : Z := foldr Z.add 0 l.

(** A set of points that contains the whole group of each of its points. *)
Definition closedSet (stns : gmap Point Color) (size : Z) (v : gset Point) : Prop :=
  ∀ x y, x ∈ v → connected stns size x y → y ∈ v.

(** The regions of a list are pairwise disjoint. *)
Fixpoint disjointRegions (regs : list (Point * Group)) : Prop :=
  match regs with
  | [] => True
  | r :: regs => stones r.2 ## regionStones regs ∧ disjointRegions regs
  end.

(** *** Positions used as examples *)

(** The 3×3 position of the suicide example, BLACK on the four points next
    to the centre, and the moves that give it. *)
Definition crossBoard : Board :=
  mkBoard 3 (<[mkPoint 0 1 := BLACK]> (<[mkPoint 1 0 := BLACK]>
            (<[mkPoint 1 2 := BLACK]> (<[mkPoint 2 1 := BLACK]> ∅)))).

Definition crossMoves : list (Color * (Z * Z)) :=
  [(BLACK, (0, 1)); (BLACK, (1, 0)); (BLACK, (1, 2)); (BLACK, (2, 1))].

(** A 3×3 position in which BLACK at (1,0) takes the WHITE corner stone. *)
Definition cornerBoard : Board :=
  mkBoard 3 (<[mkPoint 0 0 := WHITE]> (<[mkPoint 0 1 := BLACK]> ∅)).

(** Three moves on the empty 3×3 board that end with the capture of the
    WHITE corner stone, and the board after them. *)
Definition cornerMoves : list (Color * (Z * Z)) :=
  [(WHITE, (0, 0)); (BLACK, (0, 1)); (BLACK, (1, 0))].

Definition cornerResult : Board :=
  mkBoard 3 (<[mkPoint 0 0 := EMPTY]> (<[mkPoint 1 0 := BLACK]>
            (<[mkPoint 0 1 := BLACK]> (<[mkPoint 0 0 := WHITE]> ∅)))).

(** A 3×3 position in which the WHITE group (0,0), (0,1), (1,0) touches the
    point (1,1) twice and has this point as its last liberty; the moves that
    give it; the same position with a BLACK stone at (1,1), before captures,
    and the WHITE group on it. *)
Definition bentBoard : Board :=
  mkBoard 3 (<[mkPoint 0 0 := WHITE]> (<[mkPoint 0 1 := WHITE]>
            (<[mkPoint 1 0 := WHITE]> (<[mkPoint 0 2 := BLACK]>
            (<[mkPoint 2 0 := BLACK]> ∅))))).

Definition bentMoves : list (Color * (Z * Z)) :=
  [(WHITE, (0, 0)); (WHITE, (0, 1)); (WHITE, (1, 0));
   (BLACK, (0, 2)); (BLACK, (2, 0))].

Definition bentTentative : gmap Point Color :=
  replaceStone (board_stones bentBoard) (mkPoint 1 1) BLACK.

Definition bentGroup : Group :=
  mkGroup 0 {[mkPoint 0 0; mkPoint 0 1; mkPoint 1 0]}
          (<[mkPoint 0 2 := BLACK]> (<[mkPoint 1 1 := BLACK]>
          (<[mkPoint 2 0 := BLACK]> ∅))).

(** *** Vocabulary of the further properties *)

(** The group found from [seed] has a liberty: some point connected to the
    seed is next to an EMPTY intersection of the board. *)
Definition hasLiberty (stns : gmap Point Color) (size : Z) (seed : Point) : Prop :=
  ∃ x n, connected stns size seed x
         ∧ n ∈ getAdjacentIntersections size x
         ∧ getStone stns n = EMPTY.

(** No stone of the board is in a group that [getGroup] reports without
    liberty. *)
Definition noDeadGroup (B : Board) : Prop :=
  ∀ q g, inBounds (board_size B) q = true →
         getStone (board_stones B) q ≠ EMPTY →
         getGroup (board_stones B) (board_size B) q = Some g →
         liberties g ≠ 0%nat.

(** The points that a move of [color] at [coords] takes off the board
    [stns], which already holds the played stone: the groups of the
    opponent next to [coords] that have no liberty or, when there is none
    and the group of the played stone has no liberty, that group. *)
Definition removedBy (color : Color) (stns : gmap Point Color) (size : Z)
    (coords q : Point) : Prop :=
  (∃ g, deadNeighborGroup color stns size coords g ∧ q ∈ stones g)
  ∨ ((∀ g, ¬ deadNeighborGroup color stns size coords g)
     ∧ ∃ own, getGroup stns size coords = Some own
              ∧ liberties own = 0%nat ∧ q ∈ stones own).

(** The colour that an intersection counts for: its own if it holds a
    stone, and for an EMPTY intersection the colour of its region's
    [surrounding] if that shows one colour only. *)
Definition owner (stns : gmap Point Color) (size : Z) (p : Point)
  : option Color :=
  match getStone stns p with
  | EMPTY =>
      match getGroup stns size p with
      | Some g =>
          match elements (surroundingColors g) with
          | [c] => Some c
          | _ => None
          end
      | None => None
      end
  | c => Some c
  end.

Definition ownedPoints (B : Board) (c : Color) : gset Point :=
  filter (λ p, owner (board_stones B) (board_size B) p = Some c)
         (boardPoints (board_size B)).

(** Two stones mappings that [getStone] reads alike at every intersection
    of the board; their keys and their explicit EMPTY entries may differ. *)
Definition sameOnBoard (size : Z) (s1 s2 : gmap Point Color) : Prop :=
  ∀ q, inBounds size q = true → getStone s1 q = getStone s2 q.

(** All keys of the stones mapping are intersections of the board. *)
Definition keysOnBoard (B : Board) : Prop :=
  ∀ k, is_Some (board_stones B !! k) → inBounds (board_size B) k = true.

(** The board with the two colours exchanged, and what a group and a score
    become with it. *)
Definition swapColor (c : Color) : Color :=
  match c with
  | BLACK => WHITE
  | WHITE => BLACK
  | EMPTY => EMPTY
  end.

Definition swapBoard (B : Board) : Board :=
  mkBoard (board_size B) (swapColor <$> board_stones B).

Definition swapGroup (g : Group) : Group :=
  mkGroup (liberties g) (stones g) (swapColor <$> surrounding g).

Definition swapScore (s : Score) : Score :=
  mkScore (score_WHITE s) (score_BLACK s).

Definition swapResult (r : result Board) : result Board :=
  match r with
  | Ok B => Ok (swapBoard B)
  | Throw e => Throw e
  | Diverged => Diverged
  end.

(** *** The position, in terms of the board alone *)

(** [x] is in the group of [seed]: it is reached from [seed] by steps to an
    orthogonally adjacent intersection of the board that holds the colour
    of [seed]. *)
Definition groupOf (stns : gmap Point Color) (size : Z) (seed x : Point) : Prop :=
  rtc (λ a b, inBounds size b = true ∧ orthogonal a b
              ∧ getStone stns b = getStone stns seed) seed x.

(** The group of [seed] has no liberty: no intersection of the board next to
    one of its points is EMPTY. *)
Definition noLiberty (stns : gmap Point Color) (size : Z) (seed : Point) : Prop :=
  ∀ x m, groupOf stns size seed x → inBounds size m = true → orthogonal x m →
         getStone stns m ≠ EMPTY.

(** [c] is the colour of an intersection of the board next to a point of the
    group (or empty region) of [seed], other than the colour of [seed]; and
    [c] is the one colour of this kind. *)
Definition bordersColor (stns : gmap Point Color) (size : Z) (seed : Point)
    (c : Color) : Prop :=
  ∃ x m, groupOf stns size seed x ∧ inBounds size m = true ∧ orthogonal x m
         ∧ getStone stns m = c ∧ c ≠ getStone stns seed.

Definition soleBorder (stns : gmap Point Color) (size : Z) (seed : Point)
    (c : Color) : Prop :=
  bordersColor stns size seed c
  ∧ ∀ c', bordersColor stns size seed c' → c' = c.

(** [q] is a stone that a move of [color] at [p] takes: it is in the group
    of a stone of the opponent next to [p], and this group has no liberty on
    the board [stns], which holds the played stone. *)
Definition capturedPoint (color : Color) (stns : gmap Point Color) (size : Z)
    (p q : Point) : Prop :=
  ∃ n, inBounds size n = true ∧ orthogonal p n
       ∧ getStone stns n ≠ color ∧ getStone stns n ≠ EMPTY
       ∧ groupOf stns size n q ∧ noLiberty stns size n.

(** The intersection [p] counts for the colour [c]: it holds a stone of the
    colour, or it is EMPTY and [c] is the one colour that borders its
    region. *)
Definition ownsPoint (stns : gmap Point Color) (size : Z) (c : Color)
    (p : Point) : Prop :=
  getStone stns p = c
  ∨ (getStone stns p = EMPTY ∧ soleBorder stns size p c).

(** A 3×3 position in which WHITE at (0,1) joins the stone at (0,0) into a
    group of two without liberty and takes nothing. *)
Definition pairBoard : Board :=
  mkBoard 3 (<[mkPoint 0 0 := WHITE]> (<[mkPoint 1 0 := BLACK]>
            (<[mkPoint 1 1 := BLACK]> (<[mkPoint 0 2 := BLACK]> ∅)))).

(** A 3×3 position with a black wall on the middle row and a white stone
    in the corner (2,2): the three EMPTY points above the wall are bordered
    by BLACK alone, the two EMPTY points below it by both colours. *)
Definition wallBoard : Board :=
  mkBoard 3 (<[mkPoint 1 0 := BLACK]> (<[mkPoint 1 1 := BLACK]>
            (<[mkPoint 1 2 := BLACK]> (<[mkPoint 2 2 := WHITE]> ∅)))).

(** * Properties *)

Lemma inBounds_spec size p :
  inBounds size p = true ↔ 0 <= i p < size ∧ 0 <= j p < size.
Proof. unfold inBounds. rewrite !andb_true_iff. lia. Qed.

Lemma elem_of_getAdjacentIntersections size p q :
  q ∈ getAdjacentIntersections size p ↔ inBounds size q = true ∧ orthogonal p q.
Proof.
  unfold getAdjacentIntersections, deltas, orthogonal.
  rewrite list_elem_of_filter. simpl.
  rewrite !elem_of_cons, elem_of_nil.
  destruct p as [pi pj], q as [qi qj]; simpl.
  split.
  - intros [Hb [H|[H|[H|[H|[]]]]]]; inversion H; subst; (split; [done|lia]).
  - intros [Hb H]. split; [done|].
    destruct H as [[-> [->| ->]]|[-> [->| ->]]].
    + right; left. f_equal; lia.
    + do 3 right; left. f_equal; lia.
    + do 2 right; left. f_equal; lia.
    + left. f_equal; lia.
Qed.

Lemma orthogonal_sym p q : orthogonal p q → orthogonal q p.
Proof. unfold orthogonal. lia. Qed.

Lemma getAdjacentIntersections_length size p :
  (length (getAdjacentIntersections size p) <= 4)%nat.
Proof.
  unfold getAdjacentIntersections.
  etransitivity; [apply length_filter|]. by rewrite length_map.
Qed.

Lemma getAdjacentIntersections_NoDup size p :
  NoDup (getAdjacentIntersections size p).
Proof.
  unfold getAdjacentIntersections. apply NoDup_filter.
  destruct p as [pi pj]. simpl.
  repeat (apply NoDup_cons; split;
          [rewrite ?elem_of_cons, elem_of_nil; intros H;
           repeat (destruct H as [H|H]; [inversion H; lia|]); done|]).
  apply NoDup_nil_2.
Qed.

Lemma elem_of_Range0 size a : a ∈ Range0 size ↔ 0 <= a < size.
Proof.
  unfold Range0. rewrite list_elem_of_fmap. split.
  - intros (n & -> & Hn). apply elem_of_seq in Hn. lia.
  - intros Ha. exists (Z.to_nat a). split; [lia|]. apply elem_of_seq. lia.
Qed.

Lemma elem_of_allPositions size p :
  p ∈ allPositions size ↔ inBounds size p = true.
Proof.
  unfold allPositions. rewrite inBounds_spec, list_elem_of_In, in_flat_map.
  split.
  - intros (a & Ha & Hp).
    apply list_elem_of_In, elem_of_Range0 in Ha.
    apply list_elem_of_In, list_elem_of_fmap in Hp as (b & -> & Hb).
    apply elem_of_Range0 in Hb. done.
  - intros [Hi Hj]. exists (i p). split.
    + by apply list_elem_of_In, elem_of_Range0.
    + apply list_elem_of_In, list_elem_of_fmap. exists (j p).
      split; [by destruct p|]. by apply elem_of_Range0.
Qed.

Lemma Range0_NoDup size : NoDup (Range0 size).
Proof.
  unfold Range0. apply NoDup_fmap_2; [|apply NoDup_seq].
  intros a b. lia.
Qed.

Lemma Range0_length size : length (Range0 size) = Z.to_nat size.
Proof. unfold Range0. by rewrite length_map, length_seq. Qed.

Lemma grid_NoDup (rows cols : list Z) :
  NoDup rows → NoDup cols →
  NoDup (flat_map (λ a, map (λ b, mkPoint a b) cols) rows).
Proof.
  intros Hrows Hcols.
  induction Hrows as [|a l Hal Hl IH]; simpl; [apply NoDup_nil_2|].
  apply NoDup_app. split; [|split; [|done]].
  - apply NoDup_fmap_2; [|done]. by intros ?? [=].
  - intros p Hp1 Hp2. apply list_elem_of_fmap in Hp1 as (b & -> & _).
    apply list_elem_of_In, in_flat_map in Hp2 as (a' & Ha' & Hp).
    apply list_elem_of_In, list_elem_of_fmap in Hp as (b' & [=] & _).
    subst. by apply Hal, list_elem_of_In.
Qed.

Lemma grid_length (rows cols : list Z) :
  length (flat_map (λ a, map (λ b, mkPoint a b) cols) rows)
  = (length rows * length cols)%nat.
Proof.
  induction rows as [|a l IH]; simpl; [done|].
  by rewrite length_app, length_map, IH.
Qed.

Lemma allPositions_NoDup size : NoDup (allPositions size).
Proof. apply grid_NoDup; apply Range0_NoDup. Qed.

Lemma allPositions_length size :
  length (allPositions size) = (Z.to_nat size * Z.to_nat size)%nat.
Proof. unfold allPositions. by rewrite grid_length, Range0_length. Qed.

Lemma elem_of_boardPoints size p : p ∈ boardPoints size ↔ inBounds size p = true.
Proof. unfold boardPoints. by rewrite elem_of_list_to_set, elem_of_allPositions. Qed.

Lemma size_boardPoints size :
  base.size (boardPoints size) = (Z.to_nat size * Z.to_nat size)%nat.
Proof.
  unfold boardPoints.
  rewrite size_list_to_set by apply allPositions_NoDup.
  apply allPositions_length.
Qed.

(** ** Group search *)

Section search_facts.
Variable stns : gmap Point Color.
Variable size : Z.
Variable color : Color.

Lemma visitNeighbor_same q s n :
  getStone stns n = color →
  visitNeighbor stns color (q, s) n = (q ++ [n], s).
Proof. intros H. unfold visitNeighbor. simpl. by rewrite decide_True. Qed.

Lemma visitNeighbor_other q s n :
  getStone stns n ≠ color →
  visitNeighbor stns color (q, s) n = (q, <[n := getStone stns n]> s).
Proof. intros H. unfold visitNeighbor. simpl. by rewrite decide_False. Qed.

Lemma visitNeighbor_queue ns q s :
  (fold_left (visitNeighbor stns color) ns (q, s)).1
  = q ++ filter (λ n, getStone stns n = color) ns.
Proof.
  revert q s. induction ns as [|n ns IH]; intros q s; simpl.
  - by rewrite app_nil_r.
  - rewrite filter_cons. destruct (decide (getStone stns n = color)).
    + rewrite visitNeighbor_same, IH by done. by rewrite <- app_assoc.
    + by rewrite visitNeighbor_other, IH.
Qed.

Lemma visitNeighbor_surrounding ns q s k :
  (fold_left (visitNeighbor stns color) ns (q, s)).2 !! k
  = if decide (k ∈ ns ∧ getStone stns k ≠ color) then Some (getStone stns k)
    else s !! k.
Proof.
  revert q s. induction ns as [|n ns IH]; intros q s; cbn [fold_left].
  - case_decide as H; [|done]. destruct H as [H _]. by apply elem_of_nil in H.
  - destruct (decide (getStone stns n = color)) as [Hc|Hc];
      [rewrite visitNeighbor_same by done|rewrite visitNeighbor_other by done];
      rewrite IH.
    + repeat case_decide; try done; exfalso.
      * destruct H as [H ?]. apply H0. split; [by right|done].
      * destruct H0 as [H0 ?]. apply elem_of_cons in H0 as [->|?]; [done|].
        by apply H.
    + unfold getStone in *. repeat case_decide; try done.
      * exfalso. apply H0. destruct H. split; [by right|done].
      * destruct H0 as [H0 ?]. apply elem_of_cons in H0 as [->|?].
        -- by rewrite lookup_insert_eq.
        -- exfalso. by apply H.
      * destruct (decide (n = k)) as [->|Hne].
        -- exfalso. apply H0. split; [by left|done].
        -- by rewrite lookup_insert_ne.
Qed.
End search_facts.

(** *** Termination *)

Lemma queueWeight_app size q1 q2 :
  queueWeight size (q1 ++ q2) = (queueWeight size q1 + queueWeight size q2)%nat.
Proof. apply sum_list_with_app. Qed.

Lemma queueWeight_inBounds size q :
  Forall (λ x, inBounds size x = true) q → queueWeight size q = length q.
Proof.
  unfold queueWeight. induction 1 as [|x q Hx _ IH]; simpl; [done|].
  by rewrite Hx, IH.
Qed.

Lemma queueWeight_pushed stns size color stone :
  (queueWeight size
     (filter (λ n, getStone stns n = color) (getAdjacentIntersections size stone))
   <= 4)%nat.
Proof.
  rewrite queueWeight_inBounds.
  - etransitivity; [apply length_filter|apply getAdjacentIntersections_length].
  - apply Forall_forall. intros x Hx.
    apply list_elem_of_filter in Hx as [_ Hx].
    by apply elem_of_getAdjacentIntersections in Hx as [? _].
Qed.

Lemma search_terminates stns size color fuel visited queue surr :
  (searchMeasure size visited queue < fuel)%nat →
  is_Some (search stns size color fuel visited queue surr).
Proof.
  revert visited queue surr.
  induction fuel as [|fuel IH]; intros visited queue surr Hm; [lia|].
  destruct queue as [|stone queue]; simpl; [by eexists|].
  unfold searchMeasure in Hm.
  change (stone :: queue) with ([stone] ++ queue) in Hm.
  rewrite queueWeight_app in Hm.
  assert (1 <= queueWeight size [stone])%nat as Hw1.
  { unfold queueWeight. simpl. destruct (inBounds size stone); lia. }
  destruct (decide (stone ∈ visited)) as [Hin|Hnin].
  - apply IH. unfold searchMeasure. lia.
  - apply IH. unfold searchMeasure.
    rewrite visitNeighbor_queue, queueWeight_app.
    pose proof (queueWeight_pushed stns size color stone) as Hp.
    destruct (inBounds size stone) eqn:Hb.
    + assert (base.size (boardPoints size ∖ visited)
              = S (base.size (boardPoints size ∖ ({[stone]} ∪ visited)))) as Hs.
      { replace (boardPoints size ∖ visited)
          with ({[stone]} ∪ boardPoints size ∖ ({[stone]} ∪ visited)).
        - rewrite size_union by set_solver. by rewrite size_singleton.
        - apply set_eq. intros x. rewrite elem_of_union, !elem_of_difference,
            elem_of_union, elem_of_singleton.
          split.
          + intros [->|[? ?]]; [by rewrite elem_of_boardPoints|split; tauto].
          + intros [? ?]. destruct (decide (x = stone)); [by left|right; tauto]. }
      lia.
    + assert (base.size (boardPoints size ∖ ({[stone]} ∪ visited))
              <= base.size (boardPoints size ∖ visited))%nat as Hs.
      { apply subseteq_size. set_solver. }
      assert (queueWeight size [stone] = 6%nat) as Hw6.
      { unfold queueWeight. simpl. by rewrite Hb. }
      lia.
Qed.

(** The budget is no part of the result: a search that ends within some
    budget ends with the same result within every larger one. *)
Lemma search_fuel_mono stns size color fuel fuel' visited queue surr r :
  (fuel <= fuel')%nat →
  search stns size color fuel visited queue surr = Some r →
  search stns size color fuel' visited queue surr = Some r.
Proof.
  revert fuel' visited queue surr.
  induction fuel as [|fuel IH]; intros fuel' visited queue surr Hle; [done|].
  destruct fuel' as [|fuel']; [lia|]. cbn [search].
  destruct queue as [|stone queue]; [done|].
  destruct (decide (stone ∈ visited)); apply IH; lia.
Qed.

Lemma getGroup_terminates stns size coords : is_Some (getGroup stns size coords).
Proof.
  unfold getGroup.
  destruct (search_terminates stns size (getStone stns coords)
              (searchFuel size) ∅ [coords] ∅) as [[v s] ->]; [|by eexists].
  unfold searchMeasure, searchFuel.
  rewrite difference_empty_L, size_boardPoints.
  unfold queueWeight. simpl. destruct (inBounds size coords); lia.
Qed.

(** *** Invariant *)

Section search_invariant.
Variable stns : gmap Point Color.
Variable size : Z.
Variable color : Color.
Variable seed : Point.

Local Abbreviation Inv := (searchInv stns size color seed).

Lemma searchInv_init : Inv ∅ [seed] ∅.
Proof.
  split.
  - intros x [Hx|Hx]; [set_solver|].
    apply list_elem_of_singleton in Hx as ->. apply rtc_refl.
  - set_solver.
  - right. by apply list_elem_of_singleton.
  - intros n c. rewrite lookup_empty. split; [done|]. set_solver.
Qed.

Lemma searchInv_skip visited stone queue surr :
  stone ∈ visited → Inv visited (stone :: queue) surr → Inv visited queue surr.
Proof.
  intros Hin [Hr Hc Hs Hsu]. split.
  - intros x [Hx|Hx]; apply Hr; [by left|right; by right].
  - intros x n Hx Hl. destruct (Hc x n Hx Hl) as [?|Hq]; [by left|].
    apply elem_of_cons in Hq as [->|?]; [by left|by right].
  - destruct Hs as [?|Hq]; [by left|].
    apply elem_of_cons in Hq as [->|?]; [by left|by right].
  - done.
Qed.

Lemma searchInv_visit visited stone queue surr :
  stone ∉ visited → Inv visited (stone :: queue) surr →
  let acc := fold_left (visitNeighbor stns color)
               (getAdjacentIntersections size stone) (queue, surr) in
  Inv ({[stone]} ∪ visited) acc.1 acc.2.
Proof.
  intros Hnin [Hr Hc Hs Hsu] acc. subst acc. split.
  - intros x. rewrite visitNeighbor_queue, elem_of_union, elem_of_singleton,
      elem_of_app, list_elem_of_filter.
    intros [[->|Hx]|[Hx|[Hcol Hx]]].
    + apply Hr. right. by left.
    + apply Hr. by left.
    + apply Hr. right. by right.
    + eapply rtc_r; [apply Hr; right; by left|]. by split.
  - intros x n. rewrite visitNeighbor_queue, !elem_of_union, !elem_of_singleton,
      elem_of_app, list_elem_of_filter.
    intros [->|Hx] Hl.
    + right. right. destruct Hl. split; assumption.
    + destruct (Hc x n Hx Hl) as [?|Hq]; [left; by right|].
      apply elem_of_cons in Hq as [->|?]; [left; by left|right; by left].
  - rewrite visitNeighbor_queue, elem_of_union, elem_of_singleton, elem_of_app.
    destruct Hs as [?|Hq]; [left; by right|].
    apply elem_of_cons in Hq as [->|?]; [left; by left|right; by left].
  - intros n c. rewrite visitNeighbor_surrounding.
    case_decide as Hd.
    + destruct Hd as [Hn Hcol]. split.
      * intros [= <-]. split; [|done]. exists stone. split; [set_solver|done].
      * intros (_ & _ & ->). done.
    + rewrite Hsu. split.
      * intros ((x & Hx & Hn) & Hcol & ->). split; [|done].
        exists x. split; [set_solver|done].
      * intros ((x & Hx & Hn) & Hcol & ->). split; [|done].
        apply elem_of_union in Hx as [Hx|Hx].
        -- apply elem_of_singleton in Hx as ->. exfalso. by apply Hd.
        -- by exists x.
Qed.

Lemma search_preserves fuel visited queue surr visited' surr' :
  Inv visited queue surr →
  search stns size color fuel visited queue surr = Some (visited', surr') →
  Inv visited' [] surr'.
Proof.
  revert visited queue surr.
  induction fuel as [|fuel IH]; intros visited queue surr HI; simpl; [done|].
  destruct queue as [|stone queue].
  - by intros [= <- <-].
  - destruct (decide (stone ∈ visited)) as [Hin|Hnin].
    + apply IH. by eapply searchInv_skip.
    + apply IH. by apply searchInv_visit.
Qed.

(** At the end of the search the visited set is what [link] reaches from
    the seed, and [surr] holds the other neighbours of that set. *)
Lemma searchInv_final visited surr x :
  Inv visited [] surr → x ∈ visited ↔ rtc (link stns size color) seed x.
Proof.
  intros [Hr Hc Hs Hsu]. split.
  - intros Hx. apply Hr. by left.
  - intros Hx. revert x Hx. apply (rtc_ind_r (λ z, z ∈ visited)).
    + destruct Hs as [?|Hq]; [done|]. by apply elem_of_nil in Hq.
    + intros y z _ Hl Hy. destruct (Hc y z Hy Hl) as [?|Hq]; [done|].
      by apply elem_of_nil in Hq.
Qed.
End search_invariant.

(** *** What [getGroup] returns *)

Lemma getGroup_spec stns size seed g :
  getGroup stns size seed = Some g → groupSpec stns size seed g.
Proof.
  unfold getGroup.
  destruct (search stns size (getStone stns seed) (searchFuel size) ∅ [seed] ∅)
    as [[visited surr]|] eqn:Hs; [|done].
  intros [= <-].
  apply search_preserves with (seed := seed) in Hs; [|apply searchInv_init].
  split; simpl.
  - intros x. by apply searchInv_final with (surr := surr).
  - apply Hs.
  - done.
Qed.

Lemma groupSpec_unique stns size seed g g' :
  groupSpec stns size seed g → groupSpec stns size seed g' → g = g'.
Proof.
  intros [Hs Hsu Hl] [Hs' Hsu' Hl'].
  destruct g as [l st su], g' as [l' st' su']; simpl in *.
  assert (st = st') as <-.
  { apply set_eq. intros x. by rewrite Hs, Hs'. }
  assert (su = su') as <-.
  { apply map_eq. intros n. apply option_eq. intros c. by rewrite Hsu, Hsu'. }
  by rewrite Hl, Hl'.
Qed.

Lemma connected_refl stns size seed : connected stns size seed seed.
Proof. apply rtc_refl. Qed.

Lemma connected_inv stns size seed x :
  connected stns size seed x →
  x = seed ∨ (inBounds size x = true ∧ getStone stns x = getStone stns seed).
Proof.
  intros H. apply rtc_inv_r in H as [->|(y & _ & Hin & Hc)]; [by left|right].
  by apply elem_of_getAdjacentIntersections in Hin as [? _].
Qed.

Lemma connected_color stns size seed x :
  connected stns size seed x → getStone stns x = getStone stns seed.
Proof. intros H. by apply connected_inv in H as [->|[_ ?]]. Qed.

Lemma connected_inBounds stns size seed x :
  inBounds size seed = true → connected stns size seed x → inBounds size x = true.
Proof. intros Hb H. by apply connected_inv in H as [->|[? _]]. Qed.

Lemma link_sym stns size color x y :
  inBounds size x = true → getStone stns x = color →
  link stns size color x y → link stns size color y x.
Proof.
  intros Hb Hc [Hy _]. split; [|done].
  apply elem_of_getAdjacentIntersections in Hy as [_ Ho].
  apply elem_of_getAdjacentIntersections. split; [done|by apply orthogonal_sym].
Qed.

Lemma connected_sym stns size seed x :
  inBounds size seed = true →
  connected stns size seed x → connected stns size x seed.
Proof.
  intros Hb H. pose proof (connected_color _ _ _ _ H) as Hc.
  unfold connected in *. rewrite Hc.
  revert x H Hc.
  apply (rtc_ind_r (λ z, getStone stns z = getStone stns seed →
                         rtc (link stns size (getStone stns seed)) z seed)).
  - intros _. apply rtc_refl.
  - intros y z Hy Hl IH Hz.
    pose proof (connected_color _ _ _ _ Hy) as Hcy.
    eapply rtc_l; [|by apply IH].
    apply link_sym; [|done|done].
    by apply (connected_inBounds stns size seed).
Qed.

Lemma connected_trans stns size seed x y :
  connected stns size seed x → connected stns size x y →
  connected stns size seed y.
Proof.
  intros H1 H2. unfold connected in *.
  rewrite (connected_color _ _ _ _ H1) in H2. by etransitivity.
Qed.

(** Every member of a group on the board yields the same group. *)
Lemma getGroup_member stns size seed g p :
  inBounds size seed = true →
  getGroup stns size seed = Some g → p ∈ stones g →
  getGroup stns size p = Some g.
Proof.
  intros Hb Hg Hp.
  destruct (getGroup_terminates stns size p) as [g' Hg'].
  rewrite Hg'. f_equal.
  apply getGroup_spec in Hg as Hspec. apply getGroup_spec in Hg'.
  apply (groupSpec_unique stns size p); [done|].
  destruct Hspec as [Hs Hsu Hl].
  apply Hs in Hp.
  pose proof (connected_color _ _ _ _ Hp) as Hc.
  split; [| |done].
  - intros x. rewrite Hs. split; intros Hx.
    + apply connected_trans with seed; [by apply connected_sym|done].
    + by apply connected_trans with p.
  - intros n c. by rewrite Hsu, Hc.
Qed.

Lemma getGroup_seed stns size seed g :
  getGroup stns size seed = Some g → seed ∈ stones g.
Proof. intros Hg. apply getGroup_spec in Hg. apply Hg, connected_refl. Qed.

Lemma getGroup_color stns size seed g x :
  getGroup stns size seed = Some g → x ∈ stones g →
  getStone stns x = getStone stns seed.
Proof.
  intros Hg Hx. apply getGroup_spec in Hg. apply Hg in Hx.
  by apply connected_color in Hx.
Qed.

Lemma getGroup_inBounds stns size seed g x :
  inBounds size seed = true →
  getGroup stns size seed = Some g → x ∈ stones g → inBounds size x = true.
Proof.
  intros Hb Hg Hx. apply getGroup_spec in Hg. apply Hg in Hx.
  by apply connected_inBounds in Hx.
Qed.

(** ** play *)

Lemma getStone_replaceStone_eq stns p c : getStone (replaceStone stns p c) p = c.
Proof. unfold getStone, replaceStone. by rewrite lookup_insert_eq. Qed.

Lemma getStone_replaceStone_ne stns p q c :
  p ≠ q → getStone (replaceStone stns p c) q = getStone stns q.
Proof. intros. unfold getStone, replaceStone. by rewrite lookup_insert_ne. Qed.

Lemma isDead_spec g : isDead g = true ↔ liberties g = 0%nat.
Proof. unfold isDead. by rewrite bool_decide_eq_true. Qed.

Lemma opponentColor_spec color c :
  opponentColor color c = true ↔ c ≠ color ∧ c ≠ EMPTY.
Proof.
  unfold opponentColor. by rewrite andb_true_iff, !bool_decide_eq_true.
Qed.

Lemma removeKeys_lookup (l : list Point) (m : gmap Point Color) q :
  fold_left (λ acc stone, replaceStone acc stone EMPTY) l m !! q
  = if decide (q ∈ l) then Some EMPTY else m !! q.
Proof.
  revert m. induction l as [|k l IH]; intros m; cbn [fold_left].
  - rewrite decide_False; [done|apply not_elem_of_nil].
  - rewrite IH. unfold replaceStone.
    destruct (decide (q ∈ l)) as [Hl|Hl].
    + rewrite decide_True; [done|by right].
    + destruct (decide (k = q)) as [->|Hne].
      * rewrite lookup_insert_eq, decide_True; [done|by left].
      * rewrite lookup_insert_ne by done.
        rewrite decide_False; [done|]. rewrite elem_of_cons. naive_solver.
Qed.

Lemma elem_of_capturedStones (captured : list Group) q :
  q ∈ flat_map (λ g, elements (stones g)) captured
  ↔ ∃ g, g ∈ captured ∧ q ∈ stones g.
Proof.
  rewrite list_elem_of_In, in_flat_map. split.
  - intros (g & Hg & Hq). exists g.
    by rewrite list_elem_of_In, <- elem_of_elements, list_elem_of_In.
  - intros (g & Hg & Hq). exists g.
    by rewrite <- !list_elem_of_In, elem_of_elements.
Qed.

Lemma removeStones_captured captured stns q g :
  g ∈ captured → q ∈ stones g → removeStones captured stns !! q = Some EMPTY.
Proof.
  intros Hg Hq. unfold removeStones. rewrite removeKeys_lookup.
  rewrite decide_True; [done|]. apply elem_of_capturedStones. by exists g.
Qed.

Lemma removeStones_other captured stns q :
  (∀ g, g ∈ captured → q ∉ stones g) →
  removeStones captured stns !! q = stns !! q.
Proof.
  intros Hq. unfold removeStones. rewrite removeKeys_lookup.
  rewrite decide_False; [done|]. rewrite elem_of_capturedStones.
  intros (g & Hg & Hin). by apply (Hq g).
Qed.

Lemma neighborColors_filter color stns size coords :
  filter (λ kv : Point * Color, opponentColor color kv.2 = true)
         (neighborColors stns size coords)
  = map (λ n, (n, getStone stns n)) (opponentNeighbors color stns size coords).
Proof.
  unfold neighborColors, opponentNeighbors.
  induction (getAdjacentIntersections size coords) as [|n l IH]; [done|].
  cbn [map]. rewrite !filter_cons. cbn [snd].
  destruct (decide (opponentColor color (getStone stns n) = true));
    cbn [map]; by rewrite IH.
Qed.

Lemma Forall2_filter_dead (f : Point → option Group) l groups :
  Forall2 (λ n g, f n = Some g) l groups →
  Forall2 (λ n g, f n = Some g)
          (filter (λ n, isDead <$> f n = Some true) l)
          (filter (λ g, isDead g = true) groups).
Proof.
  induction 1 as [|n g l groups Hn _ IH]; [constructor|].
  rewrite !filter_cons, Hn. cbn [fmap option_fmap option_map].
  destruct (isDead g).
  - rewrite !decide_True by done. by constructor.
  - rewrite !decide_False by naive_solver. done.
Qed.

(** [captured], before the suicide test, has one entry for every neighbour
    of the opponent's colour whose group is dead, in the order of the
    neighbours. *)
Lemma capturedGroups_spec color stns size coords :
  ∃ captured,
    capturedGroups color stns size coords = Some captured
    ∧ Forall2 (λ n g, getGroup stns size n = Some g)
              (deadNeighbors color stns size coords) captured.
Proof.
  unfold capturedGroups. rewrite neighborColors_filter.
  destruct (mapM (λ kv : Point * Color, getGroup stns size kv.1)
              (map (λ n, (n, getStone stns n))
                   (opponentNeighbors color stns size coords)))
    as [groups|] eqn:Hm.
  - exists (filter (λ g, isDead g = true) groups). split; [done|].
    apply mapM_Some in Hm. apply Forall2_fmap_l in Hm. cbn [fst] in Hm.
    by apply Forall2_filter_dead.
  - exfalso. apply mapM_None in Hm. apply Exists_exists in Hm as (kv & _ & Hn).
    destruct (getGroup_terminates stns size kv.1) as [g Hg]. congruence.
Qed.

Lemma elem_of_capturedGroups color stns size coords captured g :
  capturedGroups color stns size coords = Some captured →
  g ∈ captured ↔ deadNeighborGroup color stns size coords g.
Proof.
  intros Hc.
  destruct (capturedGroups_spec color stns size coords) as (c' & Hc' & HF).
  rewrite Hc in Hc'. injection Hc' as <-.
  unfold deadNeighborGroup. split.
  - intros Hg. apply list_elem_of_lookup in Hg as [k Hk].
    destruct (Forall2_lookup_r _ _ _ _ _ HF Hk) as (n & Hn & Hgn).
    apply list_elem_of_lookup_2 in Hn.
    unfold deadNeighbors, opponentNeighbors in Hn.
    apply list_elem_of_filter in Hn as [Hd Hn].
    apply list_elem_of_filter in Hn as [Ho Hn].
    rewrite Hgn in Hd. injection Hd as Hd. apply isDead_spec in Hd.
    by exists n.
  - intros (n & Hn & Ho & Hgn & Hl).
    assert (n ∈ deadNeighbors color stns size coords) as Hd.
    { unfold deadNeighbors, opponentNeighbors.
      rewrite !list_elem_of_filter, Hgn. cbn.
      split; [|done]. f_equal. by apply isDead_spec. }
    apply list_elem_of_lookup in Hd as [k Hk].
    destruct (Forall2_lookup_l _ _ _ _ _ HF Hk) as (g' & Hg' & Hgn').
    rewrite Hgn in Hgn'. injection Hgn' as <-.
    by apply list_elem_of_lookup_2 in Hg'.
Qed.

(** What [play] returns on an empty intersection of the board. *)
Lemma play_empty B color (coords : Z * Z) :
  let p := mkPoint coords.1 coords.2 in
  let newBoard := replaceStone (board_stones B) p color in
  inBounds (board_size B) p = true →
  getStone (board_stones B) p = EMPTY →
  ∃ captured newGroup,
    capturedGroups color newBoard (board_size B) p = Some captured
    ∧ getGroup newBoard (board_size B) p = Some newGroup
    ∧ play B color coords
      = Ok (mkBoard (board_size B)
                    (removeStones (finalCaptured captured newGroup) newBoard)).
Proof.
  intros p newBoard Hb He. unfold play. fold p.
  rewrite Hb. cbn [negb]. rewrite decide_False by (by rewrite He; intros []).
  fold newBoard.
  destruct (capturedGroups_spec color newBoard (board_size B) p)
    as (captured & -> & _).
  destruct (getGroup_terminates newBoard (board_size B) p) as [newGroup ->].
  exists captured, newGroup. split; [done|]. split; [done|].
  unfold createBoard.
  apply inBounds_spec in Hb.
  destruct (board_size B <? 0) eqn:Hs; [lia|done].
Qed.

(** The three outcomes of [play]. *)
Lemma play_outcome B color (coords : Z * Z) :
  let p := mkPoint coords.1 coords.2 in
  (inBounds (board_size B) p = false
   ∧ play B color coords = Throw OutOfBounds)
  ∨ (inBounds (board_size B) p = true ∧ getStone (board_stones B) p ≠ EMPTY
     ∧ play B color coords = Throw IntersectionOccupied)
  ∨ (inBounds (board_size B) p = true ∧ getStone (board_stones B) p = EMPTY
     ∧ ∃ B', play B color coords = Ok B').
Proof.
  intros p.
  destruct (inBounds (board_size B) p) eqn:Hb.
  - right. destruct (decide (getStone (board_stones B) p = EMPTY)) as [He|He].
    + right. destruct (play_empty B color coords Hb He) as (c & g & _ & _ & ->).
      split; [done|]. split; [done|]. by eexists.
    + left. split; [done|]. split; [done|].
      unfold play. fold p. rewrite Hb. cbn [negb]. by rewrite decide_True.
  - left. split; [done|]. unfold play. fold p. by rewrite Hb.
Qed.

Lemma play_Ok_inv B color (coords : Z * Z) B' :
  play B color coords = Ok B' →
  inBounds (board_size B) (mkPoint coords.1 coords.2) = true
  ∧ getStone (board_stones B) (mkPoint coords.1 coords.2) = EMPTY.
Proof.
  intros Hplay.
  destruct (play_outcome B color coords) as [[_ H]|[(_ & _ & H)|(? & ? & _)]];
    [congruence|congruence|done].
Qed.

Lemma crossBoard_played :
  playAll (mkBoard 3 ∅) crossMoves = Ok crossBoard.
Proof. vm_compute. reflexivity. Qed.

Lemma bentBoard_played :
  playAll (mkBoard 3 ∅) bentMoves = Ok bentBoard.
Proof. vm_compute. reflexivity. Qed.

Lemma crossBoard_created :
  createBoard (Some 3) (Some (board_stones crossBoard)) = Ok crossBoard.
Proof. reflexivity. Qed.

Lemma deadNeighborGroup_captured color stns size coords captured g :
  capturedGroups color stns size coords = Some captured →
  deadNeighborGroup color stns size coords g → g ∈ captured.
Proof. intros Hc. by apply elem_of_capturedGroups. Qed.

Lemma finalCaptured_nonempty captured newGroup :
  captured ≠ [] → finalCaptured captured newGroup = captured.
Proof.
  intros H. unfold finalCaptured. by rewrite bool_decide_eq_false_2.
Qed.

Lemma finalCaptured_suicide newGroup :
  liberties newGroup = 0%nat → finalCaptured [] newGroup = [newGroup].
Proof.
  intros H. unfold finalCaptured.
  rewrite bool_decide_eq_true_2 by done.
  by rewrite (proj2 (isDead_spec newGroup) H).
Qed.

(** Capture, on the groups that [getGroup] returns: when the stone played
    at an empty intersection [p] leaves a
    neighbouring group of the opponent without liberty, [play] returns a
    board on which the stones of exactly those groups (which were stones
    before the move) are EMPTY, the stone played at [p] stands, and every
    other intersection reads as before. *)
Lemma play_captures_neighbor_groups (B : Board) (color : Color) (coords : Z * Z) :
  let p := mkPoint coords.1 coords.2 in
  let tentative := replaceStone (board_stones B) p color in
  let dead := λ q, ∃ g, deadNeighborGroup color tentative (board_size B) p g
                        ∧ q ∈ stones g in
  color = BLACK ∨ color = WHITE →
  inBounds (board_size B) p = true →
  getStone (board_stones B) p = EMPTY →
  (∃ g, deadNeighborGroup color tentative (board_size B) p g) →
  ∃ B', play B color coords = Ok B'
        ∧ board_size B' = board_size B
        ∧ (∀ q, dead q → getStone (board_stones B) q ≠ EMPTY
                         ∧ getStone (board_stones B') q = EMPTY)
        ∧ getStone (board_stones B') p = color
        ∧ (∀ q, q ≠ p → ¬ dead q →
                getStone (board_stones B') q = getStone (board_stones B) q).
Proof.
  intros p tentative dead Hcolor Hb He [g0 Hg0].
  destruct (play_empty B color coords Hb He)
    as (captured & newGroup & Hc & Hn & Hplay).
  fold p in Hc, Hn, Hplay. fold tentative in Hc, Hn, Hplay.
  assert (finalCaptured captured newGroup = captured) as Hfin.
  { apply finalCaptured_nonempty. intros ->.
    eapply not_elem_of_nil, deadNeighborGroup_captured; eauto. }
  rewrite Hfin in Hplay.
  assert (∀ q, dead q ↔ ∃ g, g ∈ captured ∧ q ∈ stones g) as Hdead.
  { intros q. unfold dead. split; intros (g & Hg & Hq); exists g;
      (split; [|done]); by apply (elem_of_capturedGroups _ _ _ _ _ _ Hc). }
  assert (∀ q, dead q → q ≠ p ∧ getStone tentative q ≠ EMPTY) as Hopp.
  { intros q (g & (n & Hadj & Ho & Hg & _) & Hq).
    apply opponentColor_spec in Ho as [Hne1 Hne2].
    pose proof (getGroup_color _ _ _ _ _ Hg Hq) as Hcq.
    split; [|congruence].
    intros ->. unfold tentative in Hcq, Hne1.
    rewrite getStone_replaceStone_eq in Hcq. congruence. }
  eexists. split; [exact Hplay|]. cbn [board_size board_stones].
  split; [done|]. split; [|split].
  - intros q Hq. destruct (Hopp q Hq) as [Hne Hst].
    unfold tentative in Hst. rewrite getStone_replaceStone_ne in Hst by done.
    split; [done|].
    apply Hdead in Hq as (g & Hg & Hq).
    unfold getStone. by rewrite (removeStones_captured captured tentative q g).
  - unfold getStone at 1. rewrite removeStones_other.
    + apply getStone_replaceStone_eq.
    + intros g Hg Hq. destruct (Hopp p) as [Hne _]; [|done].
      apply Hdead. by exists g.
  - intros q Hne Hq. unfold getStone at 1. rewrite removeStones_other.
    + by apply getStone_replaceStone_ne.
    + intros g Hg Hin. apply Hq, Hdead. by exists g.
Qed.

(** Suicide, on the group that [getGroup] returns: when the stone played
    at an empty intersection [p] takes
    no group of the opponent and its own group has no liberty, [play] is not
    rejected; it returns a board on which the stones of that group, [p]
    among them, are EMPTY and every other intersection reads as before. On
    the 3×3 board with BLACK at (0,1), (1,0), (1,2) and (2,1), WHITE at
    (1,1) gives a board with (1,1) EMPTY and the four black stones in
    place. *)
Lemma play_suicide_own_group :
  (∀ (B : Board) (color : Color) (coords : Z * Z),
     let p := mkPoint coords.1 coords.2 in
     let tentative := replaceStone (board_stones B) p color in
     inBounds (board_size B) p = true →
     getStone (board_stones B) p = EMPTY →
     (∀ g, ¬ deadNeighborGroup color tentative (board_size B) p g) →
     ∀ own, getGroup tentative (board_size B) p = Some own →
            liberties own = 0%nat →
     ∃ B', play B color coords = Ok B'
           ∧ board_size B' = board_size B
           ∧ p ∈ stones own
           ∧ (∀ q, q ∈ stones own → getStone (board_stones B') q = EMPTY)
           ∧ (∀ q, q ∉ stones own →
                   getStone (board_stones B') q = getStone (board_stones B) q))
  ∧ (∃ B', play crossBoard WHITE (1, 1) = Ok B'
           ∧ Board_getStone B' (1, 1) = EMPTY
           ∧ Board_getStone B' (0, 1) = BLACK
           ∧ Board_getStone B' (1, 0) = BLACK
           ∧ Board_getStone B' (1, 2) = BLACK
           ∧ Board_getStone B' (2, 1) = BLACK).
Proof.
  split.
  - intros B color coords p tentative Hb He Hnone own Hown Hlib.
    destruct (play_empty B color coords Hb He)
      as (captured & newGroup & Hc & Hn & Hplay).
    fold p in Hc, Hn, Hplay. fold tentative in Hc, Hn, Hplay.
    rewrite Hown in Hn. injection Hn as <-.
    assert (captured = []) as ->.
    { destruct captured as [|g l]; [done|]. exfalso. apply (Hnone g).
      apply (elem_of_capturedGroups _ _ _ _ _ _ Hc). by left. }
    rewrite finalCaptured_suicide in Hplay by done.
    pose proof (getGroup_seed _ _ _ _ Hown) as Hseed.
    eexists. split; [exact Hplay|]. cbn [board_size board_stones].
    split; [done|]. split; [done|]. split.
    + intros q Hq. unfold getStone.
      rewrite (removeStones_captured [own] tentative q own); [done| |done].
      by left.
    + intros q Hq. unfold getStone at 1. rewrite removeStones_other.
      * apply getStone_replaceStone_ne. by intros ->.
      * intros g Hg. by apply list_elem_of_singleton in Hg as ->.
  - eexists. split; [vm_compute; reflexivity|].
    repeat split; vm_compute; reflexivity.
Qed.

(** C3. Errors of [play]: OutOfBounds is raised exactly for coordinates
    outside [0,size)×[0,size), IntersectionOccupied exactly for coordinates on
    the board whose intersection is not EMPTY; a call that raises returns no
    board, and every other call returns one. [play] is a function of the
    board it is called on and that board is a persistent value: no call
    changes it. *)
Theorem play_errors (B : Board) (color : Color) (coords : Z * Z) :
  let p := mkPoint coords.1 coords.2 in
  (play B color coords = Throw OutOfBounds ↔ inBounds (board_size B) p = false)
  ∧ (play B color coords = Throw IntersectionOccupied
     ↔ inBounds (board_size B) p = true ∧ getStone (board_stones B) p ≠ EMPTY)
  ∧ (∀ e, play B color coords = Throw e →
          (e = OutOfBounds ∨ e = IntersectionOccupied)
          ∧ ∀ B', play B color coords ≠ Ok B')
  ∧ ((∃ B', play B color coords = Ok B')
     ↔ inBounds (board_size B) p = true ∧ getStone (board_stones B) p = EMPTY)
  ∧ play B color coords ≠ Diverged.
Proof.
  intros p.
  destruct (play_outcome B color coords)
    as [[Hb ->]|[(Hb & He & ->)|(Hb & He & B' & ->)]]; fold p in Hb;
    rewrite Hb; repeat split; try done; try naive_solver.
Qed.

(** ** createBoard and getStone *)

(** C9. [createBoard] raises InvalidSize exactly when the size is undefined
    or negative; size zero is accepted and gives a board without
    intersections. *)
Theorem createBoard_invalid_size (size : option Z)
    (stns : option (gmap Point Color)) :
  (createBoard size stns = Throw InvalidSize
   ↔ size = None ∨ ∃ n, size = Some n ∧ n < 0)
  ∧ (∀ n, size = Some n → 0 <= n →
          createBoard size stns = Ok (mkBoard n (default ∅ stns)))
  ∧ (∃ B, createBoard (Some 0) stns = Ok B
          ∧ board_size B = 0 ∧ allPositions (board_size B) = []).
Proof.
  split; [|split].
  - unfold createBoard. destruct size as [n|].
    + destruct (n <? 0) eqn:Hn.
      * split; [|done]. intros _. right. exists n. split; [done|lia].
      * split; [done|]. intros [|(m & [= <-] & Hm)]; [done|lia].
    + split; [by left|done].
  - intros n -> Hn. unfold createBoard.
    destruct (n <? 0) eqn:Hn'; [lia|]. by destruct stns.
  - eexists. split; [reflexivity|]. split; reflexivity.
Qed.

Lemma createBoard_invalid_size_witness :
  createBoard (Some 0) None = Ok (mkBoard 0 ∅)
  ∧ createBoard (Some 19) None = Ok (mkBoard 19 ∅).
Proof.
  split.
  - apply (proj1 (proj2 (createBoard_invalid_size (Some 0) None)) 0);
      [reflexivity|lia].
  - apply (proj1 (proj2 (createBoard_invalid_size (Some 19) None)) 19);
      [reflexivity|lia].
Defined.

(** C10. [Board.getStone] is total and checks no bounds: its result does not
    depend on the size of the board, and for every coordinate pair that is
    not a key of the stones mapping, on the board or off it, it is EMPTY. *)
Theorem Board_getStone_no_bounds_check (B : Board) (coords : Z * Z) :
  (∀ size', Board_getStone (mkBoard size' (board_stones B)) coords
            = Board_getStone B coords)
  ∧ (board_stones B !! mkPoint coords.1 coords.2 = None →
     Board_getStone B coords = EMPTY)
  ∧ (∀ c, board_stones B !! mkPoint coords.1 coords.2 = Some c →
          Board_getStone B coords = c).
Proof.
  unfold Board_getStone, getStone. cbn [board_stones].
  split; [done|]. split.
  - by intros ->.
  - by intros c ->.
Qed.

Lemma Board_getStone_no_bounds_check_witness :
  Board_getStone crossBoard (-1, 7) = EMPTY
  ∧ Board_getStone crossBoard (0, 0) = EMPTY.
Proof.
  split.
  - apply (proj1 (proj2 (Board_getStone_no_bounds_check crossBoard (-1, 7)))).
    vm_compute. reflexivity.
  - apply (proj1 (proj2 (Board_getStone_no_bounds_check crossBoard (0, 0)))).
    vm_compute. reflexivity.
Defined.

(** ** The stones mapping along a game *)

Lemma getStone_is_Some stns q : getStone stns q ≠ EMPTY → is_Some (stns !! q).
Proof. unfold getStone. destruct (stns !! q); [by eexists|done]. Qed.

Lemma removeStones_dom captured (stns : gmap Point Color) :
  (∀ g q, g ∈ captured → q ∈ stones g → is_Some (stns !! q)) →
  dom (removeStones captured stns) = dom stns.
Proof.
  intros Hin. apply set_eq. intros q. rewrite !elem_of_dom.
  unfold removeStones. rewrite removeKeys_lookup.
  case_decide as Hq; [|done].
  apply elem_of_capturedStones in Hq as (g & Hg & Hq).
  split; [intros _; by eapply Hin|by eexists].
Qed.

(** A successful [play] of a stone binds the played point and keeps every
    key of the mapping: a captured stone is rebound to EMPTY, not deleted. *)
Lemma play_dom B color coords B' :
  color ≠ EMPTY →
  play B color coords = Ok B' →
  board_size B' = board_size B
  ∧ dom (board_stones B')
    = {[mkPoint coords.1 coords.2]} ∪ dom (board_stones B).
Proof.
  intros Hcolor Hplay.
  destruct (play_Ok_inv B color coords B' Hplay) as [Hb He].
  destruct (play_empty B color coords Hb He)
    as (captured & newGroup & Hc & Hn & Hplay').
  rewrite Hplay' in Hplay. injection Hplay as <-.
  cbn [board_size board_stones]. split; [done|].
  set (p := mkPoint coords.1 coords.2) in *.
  set (tentative := replaceStone (board_stones B) p color) in *.
  rewrite removeStones_dom.
  - unfold tentative, replaceStone. by rewrite dom_insert_L.
  - intros g q Hg Hq. apply getStone_is_Some.
    unfold finalCaptured in Hg.
    destruct (bool_decide (captured = []) && isDead newGroup).
    + apply list_elem_of_singleton in Hg as ->.
      rewrite (getGroup_color _ _ _ _ _ Hn Hq).
      unfold tentative. by rewrite getStone_replaceStone_eq.
    + apply (elem_of_capturedGroups _ _ _ _ _ _ Hc) in Hg
        as (n & _ & Ho & Hgn & _).
      rewrite (getGroup_color _ _ _ _ _ Hgn Hq).
      by apply opponentColor_spec in Ho as [_ ?].
Qed.

(** C4, as stated, fails: after WHITE (0,0), BLACK (0,1), BLACK (1,0) on the
    empty 3×3 board the captured corner is a key bound to EMPTY. *)
Lemma stones_explicit_EMPTY_after_capture :
  ∃ B0 B, createBoard (Some 3) None = Ok B0
          ∧ playAll B0 cornerMoves = Ok B
          ∧ board_stones B !! mkPoint 0 0 = Some EMPTY
          ∧ ¬ (∀ k c, board_stones B !! k = Some c → c = BLACK ∨ c = WHITE).
Proof.
  eexists. eexists. split; [reflexivity|].
  split; [vm_compute; reflexivity|].
  split; [vm_compute; reflexivity|].
  intros H. destruct (H (mkPoint 0 0) EMPTY); [vm_compute; reflexivity|done|done].
Qed.

(** C4, amended. On every board reached from [createBoard] without initial
    stones by successful plays of BLACK and WHITE stones, the keys of the
    stones mapping are exactly the points that were played (all on the
    board): [play] deletes no key, a captured stone stays as a key bound to
    EMPTY. An EMPTY intersection is a point never played, which is no key,
    or a key bound to EMPTY. *)
Theorem stones_keys_are_played_points (size : Z) (B0 B : Board)
    (moves : list (Color * (Z * Z))) :
  createBoard (Some size) None = Ok B0 →
  Forall (λ m : Color * (Z * Z), m.1 = BLACK ∨ m.1 = WHITE) moves →
  playAll B0 moves = Ok B →
  board_size B = size
  ∧ dom (board_stones B) = playedPoints moves
  ∧ (∀ k, k ∈ dom (board_stones B) → inBounds size k = true)
  ∧ (∀ k, getStone (board_stones B) k = EMPTY
          ↔ k ∉ playedPoints moves ∨ board_stones B !! k = Some EMPTY).
Proof.
  intros Hcreate Hmoves Hplay.
  assert (board_size B0 = size ∧ board_stones B0 = ∅) as [Hsz0 Hst0].
  { unfold createBoard in Hcreate. destruct (size <? 0); [done|].
    by injection Hcreate as <-. }
  assert (board_size B = size
          ∧ dom (board_stones B) = dom (board_stones B0) ∪ playedPoints moves
          ∧ ∀ k, k ∈ playedPoints moves → inBounds size k = true)
    as (Hsz & Hdom & Hin).
  { clear Hcreate Hst0. revert B0 Hsz0 Hplay.
    induction Hmoves as [|[color coords] moves Hm _ IH]; intros B0 Hsz0 Hplay.
    - injection Hplay as <-. unfold playedPoints. cbn.
      split; [done|]. split; set_solver.
    - cbn [playAll] in Hplay.
      destruct (play B0 color coords) as [B1| |] eqn:Hp; [|done|done].
      cbn [fst] in Hm.
      destruct (play_dom B0 color coords B1) as [Hsz1 Hdom1];
        [by destruct Hm as [-> | ->]|done|].
      destruct (IH B1) as (Hsz & Hdom & Hin); [congruence|done|].
      split; [done|]. unfold playedPoints in *. cbn [map list_to_set fst snd].
      split.
      + rewrite Hdom, Hdom1. set_solver.
      + intros k. rewrite elem_of_union, elem_of_singleton.
        intros [->|Hk]; [|by apply Hin].
        destruct (play_Ok_inv B0 color coords B1 Hp) as [Hb _].
        by rewrite <- Hsz0. }
  rewrite Hst0, dom_empty_L, union_empty_l_L in Hdom.
  split; [done|]. split; [done|]. split.
  - intros k. rewrite Hdom. apply Hin.
  - intros k. rewrite <- Hdom, not_elem_of_dom. unfold getStone.
    destruct (board_stones B !! k) as [c|]; cbn; [|naive_solver].
    split; [intros ->; by right|]. by intros [|[= ->]].
Qed.

Lemma stones_keys_are_played_points_witness :
  board_size cornerResult = 3
  ∧ dom (board_stones cornerResult) = playedPoints cornerMoves
  ∧ (getStone (board_stones cornerResult) (mkPoint 0 0) = EMPTY
     ↔ mkPoint 0 0 ∉ playedPoints cornerMoves
       ∨ board_stones cornerResult !! mkPoint 0 0 = Some EMPTY).
Proof.
  destruct (stones_keys_are_played_points 3 (mkBoard 3 ∅) cornerResult cornerMoves)
    as (Hsz & Hdom & _ & Hempty).
  - reflexivity.
  - repeat (apply Forall_cons; split; [cbn; auto|]). apply Forall_nil_2.
  - vm_compute. reflexivity.
  - split; [exact Hsz|]. split; [exact Hdom|]. apply Hempty.
Defined.

(** ** Groups reached from several neighbours *)

Lemma removeStones_remove_dups captured stns :
  removeStones (remove_dups captured) stns = removeStones captured stns.
Proof.
  apply map_eq. intros q. unfold removeStones. rewrite !removeKeys_lookup.
  apply decide_ext. rewrite !elem_of_capturedStones.
  by setoid_rewrite elem_of_remove_dups.
Qed.

(** C5, as stated, fails: BLACK at (1,1) on [bentBoard] takes one WHITE
    group, which [captured] lists once for (0,1) and once for (1,0). *)
Lemma captured_lists_group_twice :
  capturedGroups BLACK bentTentative 3 (mkPoint 1 1)
  = Some [bentGroup; bentGroup]
  ∧ ¬ NoDup [bentGroup; bentGroup].
Proof.
  split; [vm_compute; reflexivity|].
  intros H. apply NoDup_cons in H as [H _]. apply H. by left.
Qed.

(** C5, amended. [captured] has one entry for every neighbour of the
    opponent's colour whose group is dead: a dead group that touches the
    played point at several neighbours is listed once for each of them, with
    equal entries. No entry is dropped before the stones are removed; the
    board that results is the one the list without its duplicates gives,
    and the suicide test reads the same on both lists. *)
Theorem captured_one_entry_per_dead_neighbor (color : Color)
    (stns : gmap Point Color) (size : Z) (coords : Point)
    (captured : list Group) :
  capturedGroups color stns size coords = Some captured →
  Forall2 (λ n g, getGroup stns size n = Some g)
          (deadNeighbors color stns size coords) captured
  ∧ (∀ n1 n2 g, n1 ∈ deadNeighbors color stns size coords →
                n2 ∈ deadNeighbors color stns size coords →
                getGroup stns size n1 = Some g → n2 ∈ stones g →
                getGroup stns size n2 = Some g)
  ∧ (∀ newGroup,
       removeStones (finalCaptured (remove_dups captured) newGroup) stns
       = removeStones (finalCaptured captured newGroup) stns).
Proof.
  intros Hc.
  destruct (capturedGroups_spec color stns size coords) as (c' & Hc' & HF).
  rewrite Hc in Hc'. injection Hc' as <-.
  split; [done|]. split.
  - intros n1 n2 g Hn1 _ Hg Hn2.
    apply (getGroup_member stns size n1); [|done|done].
    unfold deadNeighbors, opponentNeighbors in Hn1.
    apply list_elem_of_filter in Hn1 as [_ Hn1].
    apply list_elem_of_filter in Hn1 as [_ Hn1].
    by apply elem_of_getAdjacentIntersections in Hn1 as [? _].
  - intros newGroup. unfold finalCaptured.
    destruct captured as [|g l].
    + done.
    + rewrite !bool_decide_eq_false_2.
      * cbn [andb]. apply removeStones_remove_dups.
      * done.
      * intros H. assert (g ∈ remove_dups (g :: l)) as Hg.
        { apply elem_of_remove_dups. by left. }
        rewrite H in Hg. by apply elem_of_nil in Hg.
Qed.

Lemma captured_one_entry_per_dead_neighbor_witness :
  Forall2 (λ n g, getGroup bentTentative 3 n = Some g)
          (deadNeighbors BLACK bentTentative 3 (mkPoint 1 1))
          [bentGroup; bentGroup]
  ∧ getGroup bentTentative 3 (mkPoint 1 0) = Some bentGroup
  ∧ removeStones (finalCaptured (remove_dups [bentGroup; bentGroup]) bentGroup)
                 bentTentative
    = removeStones (finalCaptured [bentGroup; bentGroup] bentGroup)
                   bentTentative.
Proof.
  destruct (captured_one_entry_per_dead_neighbor BLACK bentTentative 3
              (mkPoint 1 1) [bentGroup; bentGroup]) as (HF & Hsame & Hrem).
  - vm_compute. reflexivity.
  - split; [exact HF|]. split; [|apply Hrem].
    apply (Hsame (mkPoint 0 1) (mkPoint 1 0) bentGroup).
    + apply list_elem_of_In. vm_compute. tauto.
    + apply list_elem_of_In. vm_compute. tauto.
    + vm_compute. reflexivity.
    + cbn [stones bentGroup]. rewrite !elem_of_union, !elem_of_singleton. auto.
Defined.

(** ** Group closure *)

Lemma connected_connectedIn stns size seed g x :
  groupSpec stns size seed g → x ∈ stones g → connectedIn (stones g) seed x.
Proof.
  intros Hspec Hx. apply (gs_stones _ _ _ _ Hspec) in Hx.
  unfold connected in Hx. revert x Hx.
  apply (rtc_ind_r (λ z, connectedIn (stones g) seed z)).
  - apply rtc_refl.
  - intros y z Hy Hl IH. eapply rtc_r; [exact IH|].
    split.
    + apply (gs_stones _ _ _ _ Hspec). unfold connected. by eapply rtc_r.
    + destruct Hl as [Hl _].
      by apply elem_of_getAdjacentIntersections in Hl as [_ ?].
Qed.

Lemma groupSpec_maximal stns size seed g x n :
  groupSpec stns size seed g →
  x ∈ stones g → inBounds size n = true → orthogonal x n → n ∉ stones g →
  getStone stns n ≠ getStone stns seed.
Proof.
  intros Hspec Hx Hb Ho Hn Hc. apply Hn.
  apply (gs_stones _ _ _ _ Hspec). apply (gs_stones _ _ _ _ Hspec) in Hx.
  unfold connected in *. eapply rtc_r; [exact Hx|].
  split; [|done]. by apply elem_of_getAdjacentIntersections.
Qed.

(** C8. Group closure: for a stone of colour [C] at a point [c] of the
    board, every point of the group found from [c] is on the board and holds
    [C]; the group contains [c] and each of its points is reached from [c] by
    orthogonal steps inside the group; no point of the board outside the
    group and next to a member holds [C]; and [liberties] is the number of
    keys of [surrounding] bound to EMPTY, which are the EMPTY points of the
    board next to a member. *)
Theorem getGroup_closure (B : Board) (c : Point) (C : Color) :
  let stns := board_stones B in
  let size := board_size B in
  inBounds size c = true →
  getStone stns c = C → C ≠ EMPTY →
  ∃ g, getGroup stns size c = Some g
       ∧ c ∈ stones g
       ∧ (∀ x, x ∈ stones g →
               inBounds size x = true ∧ getStone stns x = C
               ∧ connectedIn (stones g) c x)
       ∧ (∀ x n, x ∈ stones g → inBounds size n = true → orthogonal x n →
                 n ∉ stones g → getStone stns n ≠ C)
       ∧ ∃ L : gset Point,
           liberties g = base.size L
           ∧ (∀ n, n ∈ L ↔ surrounding g !! n = Some EMPTY)
           ∧ (∀ n, n ∈ L ↔ inBounds size n = true ∧ getStone stns n = EMPTY
                           ∧ ∃ x, x ∈ stones g ∧ orthogonal x n).
Proof.
  intros stns size Hb HC Hne.
  destruct (getGroup_terminates stns size c) as [g Hg].
  pose proof (getGroup_spec _ _ _ _ Hg) as Hspec.
  exists g. split; [done|]. split; [by eapply getGroup_seed|].
  split; [|split].
  - intros x Hx. split; [by eapply getGroup_inBounds|].
    split; [rewrite <- HC; by eapply getGroup_color|].
    by eapply connected_connectedIn.
  - intros x n Hx Hn Ho Hout. rewrite <- HC.
    by eapply groupSpec_maximal.
  - set (libs := filter (λ kv : Point * Color, kv.2 = EMPTY) (surrounding g)).
    assert (∀ n, n ∈ dom libs ↔ surrounding g !! n = Some EMPTY) as HL.
    { intros n. rewrite elem_of_dom. unfold libs, is_Some.
      setoid_rewrite map_lookup_filter_Some. cbn [snd].
      split; [by intros (? & ? & ->)|by eexists]. }
    exists (dom libs). split; [|split; [done|]].
    + rewrite size_dom. apply (gs_liberties _ _ _ _ Hspec).
    + intros n. rewrite HL, (gs_surrounding _ _ _ _ Hspec). split.
      * intros ((x & Hx & Hn) & _ & He).
        apply elem_of_getAdjacentIntersections in Hn as [Hbn Ho].
        split; [done|]. split; [done|]. by exists x.
      * intros (Hbn & He & x & Hx & Ho). split; [|split].
        -- exists x. split; [done|]. by apply elem_of_getAdjacentIntersections.
        -- fold stns. rewrite He, HC. done.
        -- done.
Qed.

Lemma getGroup_closure_witness :
  ∃ g, getGroup (board_stones bentBoard) 3 (mkPoint 0 1) = Some g
       ∧ mkPoint 0 1 ∈ stones g
       ∧ ∃ L : gset Point, liberties g = base.size L
           ∧ (∀ n, n ∈ L ↔ surrounding g !! n = Some EMPTY).
Proof.
  destruct (getGroup_closure bentBoard (mkPoint 0 1) WHITE)
    as (g & Hg & Hseed & _ & _ & L & Hlib & HL & _).
  - vm_compute. reflexivity.
  - vm_compute. reflexivity.
  - intros [=].
  - exists g. split; [exact Hg|]. split; [exact Hseed|].
    exists L. split; [exact Hlib|exact HL].
Defined.

(** ** areaScore *)

Lemma scoreOf_addScore c sc x n :
  c = BLACK ∨ c = WHITE →
  scoreOf c (addScore sc x n) = scoreOf c sc + (if decide (x = c) then n else 0).
Proof.
  intros [-> | ->]; destruct x; cbn; case_decide; congruence || lia.
Qed.

Lemma singleton_color_eq (x c : Color) : ({[x]} : gset Color) = {[c]} ↔ x = c.
Proof.
  split; [|by intros ->]. intros H.
  assert (x ∈ ({[c]} : gset Color)) as Hx by (rewrite <- H; set_solver).
  by apply elem_of_singleton in Hx.
Qed.

Lemma scoreStep_visited stns size visited sc coords :
  coords ∈ visited → scoreStep stns size (visited, sc) coords = Some (visited, sc).
Proof. intros H. unfold scoreStep. by rewrite decide_True. Qed.

Lemma scoreStep_fresh stns size visited sc coords g :
  coords ∉ visited → getGroup stns size coords = Some g →
  ∃ sc', scoreStep stns size (visited, sc) coords = Some (visited ∪ stones g, sc')
         ∧ ∀ c, c = BLACK ∨ c = WHITE →
                scoreOf c sc' = scoreOf c sc + contribution stns c (coords, g).
Proof.
  intros Hv Hg. unfold scoreStep. rewrite decide_False by done.
  rewrite Hg. cbn [mbind option_bind]. eexists. split; [reflexivity|].
  intros c Hc. unfold contribution. cbn [fst snd].
  destruct (decide (getStone stns coords = EMPTY)) as [He|He].
  - destruct (decide (base.size (surroundingColors g) = 1%nat)) as [H1|H1].
    + apply size_1_elem_of in H1 as [x Hx]. apply leibniz_equiv in Hx.
      rewrite Hx, elements_singleton, scoreOf_addScore by done.
      f_equal. apply decide_ext. by rewrite singleton_color_eq.
    + rewrite decide_False; [lia|].
      intros H. apply H1. by rewrite H, size_singleton.
  - by apply scoreOf_addScore.
Qed.

Lemma forEachPosition_spec stns size positions visited sc :
  ∃ sc',
    forEachPosition stns size positions (visited, sc)
    = Some (visited ∪ regionStones (discoveredRegions stns size positions visited),
            sc')
    ∧ ∀ c, c = BLACK ∨ c = WHITE →
           scoreOf c sc'
           = scoreOf c sc
             + sumZ (map (contribution stns c)
                         (discoveredRegions stns size positions visited)).
Proof.
  revert visited sc.
  induction positions as [|coords positions IH]; intros visited sc.
  - exists sc. cbn. unfold regionStones. cbn.
    rewrite union_empty_r_L. split; [done|]. intros. unfold sumZ. cbn. lia.
  - cbn [forEachPosition discoveredRegions].
    destruct (decide (coords ∈ visited)) as [Hv|Hv].
    + rewrite scoreStep_visited by done. cbn [mbind option_bind]. apply IH.
    + destruct (getGroup_terminates stns size coords) as [g Hg].
      destruct (scoreStep_fresh stns size visited sc coords g Hv Hg)
        as (sc1 & -> & Hsc1).
      rewrite Hg. cbn [mbind option_bind].
      destruct (IH (visited ∪ stones g) sc1) as (sc' & -> & Hsc').
      exists sc'. split.
      * f_equal. f_equal. unfold regionStones. cbn [map union_list foldr snd].
        by rewrite (assoc_L (∪)).
      * intros c Hc. rewrite Hsc', Hsc1 by done. unfold sumZ. cbn [map foldr]. lia.
Qed.

Lemma elem_of_discoveredRegions stns size positions visited seed g :
  (seed, g) ∈ discoveredRegions stns size positions visited →
  seed ∈ positions ∧ getGroup stns size seed = Some g.
Proof.
  revert visited. induction positions as [|coords positions IH]; intros visited.
  - cbn. by intros ?%elem_of_nil.
  - cbn [discoveredRegions].
    destruct (decide (coords ∈ visited)) as [Hv|Hv].
    + intros H. apply IH in H as [? ?]. split; [by right|done].
    + destruct (getGroup stns size coords) as [g'|] eqn:Hg'.
      * intros [[= -> ->]|H]%elem_of_cons; [split; [by left|done]|].
        apply IH in H as [? ?]. split; [by right|done].
      * by intros ?%elem_of_nil.
Qed.

(** The [surrounding] of an empty region holds stones only. *)
Lemma surroundingColors_of_empty stns size seed g c :
  getGroup stns size seed = Some g → getStone stns seed = EMPTY →
  c ∈ surroundingColors g → c ≠ EMPTY.
Proof.
  intros Hg He Hc. apply getGroup_spec in Hg.
  unfold surroundingColors in Hc.
  apply elem_of_list_to_set, list_elem_of_fmap in Hc as ([n c'] & -> & Hin).
  apply elem_of_map_to_list in Hin.
  apply (gs_surrounding _ _ _ _ Hg) in Hin as (_ & Hne & ->).
  cbn. by rewrite <- He.
Qed.

Lemma areaScore_sums (B : Board) :
  ∃ s, areaScore B = Some s
       ∧ score_BLACK s
         = sumZ (map (contribution (board_stones B) BLACK) (regions B))
       ∧ score_WHITE s
         = sumZ (map (contribution (board_stones B) WHITE) (regions B)).
Proof.
  unfold areaScore.
  destruct (forEachPosition_spec (board_stones B) (board_size B)
              (allPositions (board_size B)) ∅ (mkScore 0 0)) as (s & Hs & Hsc).
  rewrite Hs. cbn [mbind option_bind snd].
  exists s. split; [done|].
  split; [exact (Hsc BLACK (or_introl eq_refl))|].
  exact (Hsc WHITE (or_intror eq_refl)).
Qed.

Lemma regions_getGroup (B : Board) r :
  r ∈ regions B →
  inBounds (board_size B) r.1 = true
  ∧ getGroup (board_stones B) (board_size B) r.1 = Some r.2.
Proof.
  destruct r as [seed g]. intros Hr.
  apply elem_of_discoveredRegions in Hr as [Hr Hg].
  by apply elem_of_allPositions in Hr.
Qed.

Example areaScore_empty_board :
  areaScore (mkBoard 9 ∅) = Some (mkScore 0 0).
Proof. vm_compute. reflexivity. Qed.

Example areaScore_crossBoard :
  areaScore crossBoard = Some (mkScore 9 0).
Proof. vm_compute. reflexivity. Qed.

Example areaScore_bentBoard :
  areaScore bentBoard = Some (mkScore 2 3).
Proof. vm_compute. reflexivity. Qed.

(** The score as a sum over the regions: the score of each colour is the
    sum, over the
    regions that [areaScore] finds, of what each region gives to the colour.
    An empty region whose [surrounding] shows exactly one colour gives its
    size to that colour (BLACK or WHITE) and nothing to the other; an empty
    region whose [surrounding] shows no colour or several gives nothing; a
    group found at a stone gives its number of stones to the colour of the
    stone. *)
Lemma areaScore_region_amounts (B : Board) :
  let stns := board_stones B in
  ∃ s, areaScore B = Some s
       ∧ score_BLACK s = sumZ (map (contribution stns BLACK) (regions B))
       ∧ score_WHITE s = sumZ (map (contribution stns WHITE) (regions B))
       ∧ ∀ seed g, (seed, g) ∈ regions B →
           getGroup stns (board_size B) seed = Some g
           ∧ (getStone stns seed = EMPTY →
              (∀ c, surroundingColors g = {[c]} →
                    (c = BLACK ∨ c = WHITE)
                    ∧ contribution stns c (seed, g) = regionSize (seed, g)
                    ∧ ∀ c', c' ≠ c → contribution stns c' (seed, g) = 0)
              ∧ (base.size (surroundingColors g) ≠ 1%nat →
                 ∀ c, contribution stns c (seed, g) = 0))
           ∧ (getStone stns seed ≠ EMPTY →
              contribution stns (getStone stns seed) (seed, g) = regionSize (seed, g)
              ∧ ∀ c', c' ≠ getStone stns seed →
                      contribution stns c' (seed, g) = 0).
Proof.
  intros stns.
  destruct (areaScore_sums B) as (s & Hs & HB & HW).
  exists s. split; [done|]. split; [done|]. split; [done|].
  intros seed g Hr.
  apply regions_getGroup in Hr as [_ Hg]. cbn [fst snd] in Hg. fold stns in Hg.
  split; [done|]. unfold contribution, regionSize. cbn [fst snd]. split.
  - intros He. split.
    + intros c Hc. split; [|split].
      * assert (c ≠ EMPTY) as Hne.
        { eapply surroundingColors_of_empty; [done..|]. rewrite Hc. set_solver. }
        destruct c; [done|by left|by right].
      * by rewrite !decide_True.
      * intros c' Hc'. rewrite decide_True by done.
        rewrite decide_False; [done|].
        rewrite Hc, singleton_color_eq. congruence.
    + intros H1 c. rewrite decide_True by done.
      rewrite decide_False; [done|].
      intros H. apply H1. by rewrite H, size_singleton.
  - intros He. split.
    + rewrite decide_False by done. by rewrite decide_True.
    + intros c' Hc'. rewrite !decide_False; [done|congruence|done].
Qed.

(** *** The regions partition the board *)

Lemma closedSet_empty stns size : closedSet stns size ∅.
Proof. intros x y Hx. set_solver. Qed.

Lemma group_fresh stns size visited coords g :
  inBounds size coords = true →
  closedSet stns size visited → coords ∉ visited →
  getGroup stns size coords = Some g →
  stones g ## visited ∧ closedSet stns size (visited ∪ stones g).
Proof.
  intros Hb Hcl Hv Hg. pose proof (getGroup_spec _ _ _ _ Hg) as Hspec. split.
  - intros x Hx Hxv. apply Hv. apply (Hcl x coords Hxv).
    apply connected_sym; [done|]. by apply (gs_stones _ _ _ _ Hspec).
  - intros x y [Hx|Hx]%elem_of_union Hxy; apply elem_of_union.
    + left. by apply (Hcl x y).
    + right. apply (gs_stones _ _ _ _ Hspec).
      apply connected_trans with x; [|done].
      by apply (gs_stones _ _ _ _ Hspec).
Qed.

Lemma regionStones_cons r regs :
  regionStones (r :: regs) = stones r.2 ∪ regionStones regs.
Proof. done. Qed.

Lemma elem_of_regionStones regs p :
  p ∈ regionStones regs ↔ ∃ r, r ∈ regs ∧ p ∈ stones r.2.
Proof.
  unfold regionStones. rewrite elem_of_union_list. split.
  - intros (X & HX & Hp). apply list_elem_of_fmap in HX as (r & -> & Hr).
    by exists r.
  - intros (r & Hr & Hp). exists (stones r.2). split; [|done].
    apply list_elem_of_fmap. by exists r.
Qed.

Lemma discoveredRegions_partition stns size positions visited :
  Forall (λ p, inBounds size p = true) positions →
  visited ⊆ boardPoints size →
  closedSet stns size visited →
  let regs := discoveredRegions stns size positions visited in
  regionStones regs ## visited
  ∧ disjointRegions regs
  ∧ Z.of_nat (base.size (regionStones regs)) = sumZ (map regionSize regs)
  ∧ visited ∪ regionStones regs ⊆ boardPoints size
  ∧ (∀ p, p ∈ positions → p ∈ visited ∪ regionStones regs).
Proof.
  intros Hpos. revert visited.
  induction Hpos as [|coords positions Hb _ IH]; intros visited Hsub Hcl.
  - cbn. unfold regionStones. cbn. repeat split; try set_solver.
  - cbn [discoveredRegions].
    destruct (decide (coords ∈ visited)) as [Hv|Hv].
    + destruct (IH visited Hsub Hcl) as (Ha & Hd & Hs & Hbd & Hcov).
      repeat split; try done.
      intros p [->|Hp]%elem_of_cons; [set_solver|by apply Hcov].
    + destruct (getGroup_terminates stns size coords) as [g Hg]. rewrite Hg.
      destruct (group_fresh stns size visited coords g Hb Hcl Hv Hg)
        as [Hfresh Hcl'].
      assert (stones g ⊆ boardPoints size) as Hgsub.
      { intros x Hx. apply elem_of_boardPoints. by eapply getGroup_inBounds. }
      destruct (IH (visited ∪ stones g)) as (Ha & Hd & Hs & Hbd & Hcov);
        [set_solver|done|].
      cbn zeta. rewrite regionStones_cons. cbn [snd disjointRegions map].
      split; [set_solver|]. split; [split; [set_solver|done]|].
      split; [|split].
      * rewrite size_union by set_solver. unfold sumZ in *. cbn [foldr].
        unfold regionSize at 1. cbn [snd]. lia.
      * set_solver.
      * intros p [->|Hp]%elem_of_cons.
        -- apply elem_of_union. right. apply elem_of_union. left.
           by eapply getGroup_seed.
        -- specialize (Hcov p Hp). set_solver.
Qed.

Lemma regions_partition (B : Board) :
  disjointRegions (regions B)
  ∧ regionStones (regions B) = boardPoints (board_size B)
  ∧ sumZ (map regionSize (regions B))
    = Z.of_nat (Z.to_nat (board_size B) * Z.to_nat (board_size B)).
Proof.
  unfold regions.
  destruct (discoveredRegions_partition (board_stones B) (board_size B)
              (allPositions (board_size B)) ∅) as (_ & Hd & Hs & Hbd & Hcov).
  - apply Forall_forall. intros p. apply elem_of_allPositions.
  - set_solver.
  - apply closedSet_empty.
  - split; [done|].
    assert (regionStones
              (discoveredRegions (board_stones B) (board_size B)
                 (allPositions (board_size B)) ∅)
            = boardPoints (board_size B)) as Heq.
    { apply set_eq. intros p. split.
      - intros Hp. apply Hbd. set_solver.
      - intros Hp. unfold boardPoints in Hp. apply elem_of_list_to_set in Hp.
        specialize (Hcov p Hp). set_solver. }
    split; [done|]. by rewrite <- Hs, Heq, size_boardPoints.
Qed.

Lemma disjointRegions_lookup regs k1 k2 r1 r2 :
  disjointRegions regs →
  regs !! k1 = Some r1 → regs !! k2 = Some r2 → k1 ≠ k2 →
  stones r1.2 ## stones r2.2.
Proof.
  revert k1 k2. induction regs as [|r regs IH]; intros k1 k2 Hd H1 H2 Hne.
  - done.
  - destruct Hd as [Hr Hd]. destruct k1 as [|k1], k2 as [|k2]; cbn in H1, H2.
    + done.
    + injection H1 as <-. intros x Hx1 Hx2. apply (Hr x Hx1).
      apply elem_of_regionStones. exists r2.
      split; [by eapply list_elem_of_lookup_2|done].
    + injection H2 as <-. intros x Hx1 Hx2. apply (Hr x Hx2).
      apply elem_of_regionStones. exists r1.
      split; [by eapply list_elem_of_lookup_2|done].
    + apply (IH k1 k2); [done..|]. congruence.
Qed.

(** *** Totals *)

Lemma sumZ_add {A} (f h : A → Z) l :
  sumZ (map (λ r, f r + h r) l) = sumZ (map f l) + sumZ (map h l).
Proof. unfold sumZ. induction l as [|a l IH]; cbn; lia. Qed.

Lemma sumZ_le_eq {A} (f h : A → Z) (l : list A) :
  (∀ r, r ∈ l → f r <= h r) →
  sumZ (map f l) <= sumZ (map h l)
  ∧ (sumZ (map f l) = sumZ (map h l) ↔ ∀ r, r ∈ l → f r = h r).
Proof.
  unfold sumZ. induction l as [|a l IH]; intros Hle; cbn.
  - split; [lia|]. split; [|done]. by intros _ r ?%elem_of_nil.
  - destruct IH as [IH1 IH2]; [intros r Hr; apply Hle; by right|].
    pose proof (Hle a ltac:(by left)) as Ha.
    split; [lia|]. split.
    + intros Heq r [->|Hr]%elem_of_cons; [lia|]. apply IH2; [lia|done].
    + intros Hall. rewrite (Hall a) by (by left).
      f_equal. apply IH2. intros r Hr. apply Hall. by right.
Qed.

Lemma neutral_dec stns r : neutral stns r ∨ ¬ neutral stns r.
Proof.
  unfold neutral.
  destruct (decide (getStone stns r.1 = EMPTY)) as [He|He]; [|right; tauto].
  destruct (decide (base.size (surroundingColors r.2) = 1%nat)); [right|left]; tauto.
Qed.

Lemma regionSize_pos stns size seed g :
  getGroup stns size seed = Some g → 1 <= regionSize (seed, g).
Proof.
  intros Hg. apply getGroup_seed in Hg. unfold regionSize. cbn [snd].
  assert (base.size (stones g) ≠ 0%nat); [|lia].
  apply size_non_empty_iff. set_solver.
Qed.

Lemma contribution_one_color stns seed g x c :
  getStone stns seed = EMPTY → surroundingColors g = {[x]} →
  contribution stns c (seed, g) = if decide (x = c) then regionSize (seed, g) else 0.
Proof.
  intros He Hx. unfold contribution, regionSize. cbn [fst snd].
  rewrite decide_True by done. rewrite Hx.
  apply decide_ext, singleton_color_eq.
Qed.

Lemma contribution_neutral stns seed g c :
  neutral stns (seed, g) → contribution stns c (seed, g) = 0.
Proof.
  intros [He H1]. cbn [fst snd] in He, H1. unfold contribution. cbn [fst snd].
  rewrite decide_True by done. rewrite decide_False; [done|].
  intros H. apply H1. by rewrite H, size_singleton.
Qed.

Lemma contribution_stone stns seed g c :
  getStone stns seed ≠ EMPTY →
  contribution stns c (seed, g)
  = if decide (getStone stns seed = c) then regionSize (seed, g) else 0.
Proof.
  intros He. unfold contribution, regionSize. cbn [fst snd].
  by rewrite decide_False.
Qed.

(** Both colours together get the size of a region, or nothing when the
    region is neutral. *)
Lemma contribution_total stns size seed g :
  getGroup stns size seed = Some g →
  0 <= contribution stns BLACK (seed, g)
  ∧ 0 <= contribution stns WHITE (seed, g)
  ∧ (neutral stns (seed, g) →
     contribution stns BLACK (seed, g) + contribution stns WHITE (seed, g) = 0)
  ∧ (¬ neutral stns (seed, g) →
     contribution stns BLACK (seed, g) + contribution stns WHITE (seed, g)
     = regionSize (seed, g)).
Proof.
  intros Hg. pose proof (regionSize_pos _ _ _ _ Hg) as Hpos.
  destruct (neutral_dec stns (seed, g)) as [Hn|Hn].
  - rewrite !contribution_neutral by done. repeat split; (lia || tauto).
  - destruct (decide (getStone stns seed = EMPTY)) as [He|He].
    + assert (base.size (surroundingColors g) = 1%nat) as H1.
      { destruct (decide (base.size (surroundingColors g) = 1%nat)); [done|].
        exfalso. apply Hn. by split. }
      apply size_1_elem_of in H1 as [x Hx]. apply leibniz_equiv in Hx.
      assert (x ≠ EMPTY) as Hne.
      { eapply surroundingColors_of_empty; [done..|]. rewrite Hx. set_solver. }
      rewrite !(contribution_one_color stns seed g x) by done.
      destruct x; [done| |]; repeat case_decide; try congruence;
        repeat split; (lia || tauto).
    + rewrite !contribution_stone by done.
      destruct (getStone stns seed); [done| |];
        repeat case_decide; try congruence; repeat split; (lia || tauto).
Qed.

(** The area of the regions: on a board of size at least zero the two
    scores add up to at most size², and to exactly size² exactly when every
    empty region of the board has exactly one colour in its [surrounding]
    (none is neutral or contested). The regions that [areaScore] finds are
    pairwise disjoint and cover the board, and each gives its size to at
    most one colour: no intersection is counted twice. *)
Lemma areaScore_area_of_regions (B : Board) :
  let stns := board_stones B in
  let size := board_size B in
  0 <= size →
  ∃ s, areaScore B = Some s
       ∧ score_BLACK s + score_WHITE s <= size * size
       ∧ (score_BLACK s + score_WHITE s = size * size
          ↔ ∀ p g, inBounds size p = true → getStone stns p = EMPTY →
                   getGroup stns size p = Some g →
                   base.size (surroundingColors g) = 1%nat)
       ∧ (score_BLACK s + score_WHITE s = size * size
          ↔ ∀ r, r ∈ regions B → ¬ neutral stns r)
       ∧ (∀ k1 k2 r1 r2, regions B !! k1 = Some r1 → regions B !! k2 = Some r2 →
                         k1 ≠ k2 → stones r1.2 ## stones r2.2)
       ∧ regionStones (regions B) = boardPoints size
       ∧ (∀ r, r ∈ regions B →
               0 <= contribution stns BLACK r
               ∧ 0 <= contribution stns WHITE r
               ∧ contribution stns BLACK r + contribution stns WHITE r
                 <= regionSize r).
Proof.
  intros stns size Hsize.
  destruct (areaScore_sums B) as (s & Hs & HB & HW).
  fold stns in HB, HW.
  destruct (regions_partition B) as (Hdisj & Hcover & Hsum).
  fold size in Hcover, Hsum.
  assert (Z.of_nat (Z.to_nat size * Z.to_nat size) = size * size) as Hsq by lia.
  rewrite Hsq in Hsum.
  assert (∀ r, r ∈ regions B → getGroup stns size r.1 = Some r.2) as Hgrp.
  { intros r Hr. by apply regions_getGroup in Hr as [_ ?]. }
  assert (∀ r, r ∈ regions B →
               0 <= contribution stns BLACK r
               ∧ 0 <= contribution stns WHITE r
               ∧ contribution stns BLACK r + contribution stns WHITE r
                 <= regionSize r) as Hle.
  { intros [seed g] Hr. specialize (Hgrp _ Hr). cbn [fst snd] in Hgrp.
    destruct (contribution_total _ _ _ _ Hgrp) as (H1 & H2 & H3 & H4).
    pose proof (regionSize_pos _ _ _ _ Hgrp).
    destruct (neutral_dec stns (seed, g)) as [Hn|Hn];
      [rewrite (H3 Hn)|rewrite (H4 Hn)]; lia. }
  destruct (sumZ_le_eq
              (λ r, contribution stns BLACK r + contribution stns WHITE r)
              regionSize (regions B)) as [Htot Heq];
    [intros r Hr; by apply Hle|].
  rewrite sumZ_add, <- HB, <- HW, Hsum in Htot, Heq.
  assert (score_BLACK s + score_WHITE s = size * size
          ↔ ∀ r, r ∈ regions B → ¬ neutral stns r) as Hneutral.
  { rewrite Heq. split.
    - intros Hall [seed g] Hr Hn. specialize (Hgrp _ Hr). cbn [fst snd] in Hgrp.
      destruct (contribution_total _ _ _ _ Hgrp) as (_ & _ & H3 & _).
      pose proof (regionSize_pos _ _ _ _ Hgrp).
      specialize (Hall _ Hr). rewrite (H3 Hn) in Hall. lia.
    - intros Hall [seed g] Hr. specialize (Hgrp _ Hr). cbn [fst snd] in Hgrp.
      destruct (contribution_total _ _ _ _ Hgrp) as (_ & _ & _ & H4).
      apply H4. by apply Hall. }
  exists s. split; [done|]. split; [done|]. split; [|split; [done|]].
  - rewrite Hneutral. split.
    + intros Hall p g Hb He Hg.
      assert (p ∈ regionStones (regions B)) as Hp.
      { rewrite Hcover. by apply elem_of_boardPoints. }
      apply elem_of_regionStones in Hp as ([seed g'] & Hr & Hp). cbn [snd] in Hp.
      pose proof (Hgrp _ Hr) as Hg'. cbn [fst snd] in Hg'.
      assert (inBounds size seed = true) as Hbs.
      { by apply regions_getGroup in Hr as [? _]. }
      pose proof (getGroup_member _ _ _ _ _ Hbs Hg' Hp) as Hgp.
      rewrite Hg in Hgp. injection Hgp as ->.
      destruct (decide (base.size (surroundingColors g') = 1%nat)) as [|H1];
        [done|].
      exfalso. apply (Hall _ Hr). split; [|done]. cbn [fst].
      rewrite <- He. symmetry. by eapply getGroup_color.
    + intros Hall [seed g] Hr [He H1]. cbn [fst snd] in He, H1.
      apply H1. apply (Hall seed g); [|done|by apply (Hgrp _ Hr)].
      by apply regions_getGroup in Hr as [? _].
  - split; [|split; [done|done]].
    intros k1 k2 r1 r2. by apply disjointRegions_lookup.
Qed.

(** * Further properties of the code *)

(** ** Adjacency and positions *)

(** X1. Adjacency is symmetric on the board: for two points of the board,
    each is among the adjacent intersections of the other or neither is. *)
Theorem adjacency_symmetric (size : Z) (p q : Point) :
  inBounds size p = true → inBounds size q = true →
  q ∈ getAdjacentIntersections size p ↔ p ∈ getAdjacentIntersections size q.
Proof.
  intros Hp Hq. rewrite !elem_of_getAdjacentIntersections.
  split; intros [_ Ho]; (split; [done|by apply orthogonal_sym]).
Qed.

Lemma adjacency_symmetric_witness :
  mkPoint 0 1 ∈ getAdjacentIntersections 3 (mkPoint 0 0)
  ↔ mkPoint 0 0 ∈ getAdjacentIntersections 3 (mkPoint 0 1).
Proof.
  apply (adjacency_symmetric 3 (mkPoint 0 0) (mkPoint 0 1));
    vm_compute; reflexivity.
Defined.

(** X2. The adjacent intersections of a point are on the board, differ from
    the point and from each other and are at most four; for a point with a
    full row and column on either side they are the four points north,
    east, south and west of it, in this order, and a point off the board by
    two or more has none. *)
Theorem adjacent_intersections_shape (size : Z) (p : Point) :
  NoDup (getAdjacentIntersections size p)
  ∧ (length (getAdjacentIntersections size p) <= 4)%nat
  ∧ (p ∉ getAdjacentIntersections size p)
  ∧ (∀ q, q ∈ getAdjacentIntersections size p → inBounds size q = true)
  ∧ (1 <= i p → i p + 1 < size → 1 <= j p → j p + 1 < size →
     getAdjacentIntersections size p
     = [mkPoint (i p - 1) (j p); mkPoint (i p) (j p + 1);
        mkPoint (i p + 1) (j p); mkPoint (i p) (j p - 1)])
  ∧ ((i p < -1) ∨ (size < i p) ∨ (j p < -1) ∨ (size < j p) →
     getAdjacentIntersections size p = []).
Proof.
  split; [apply getAdjacentIntersections_NoDup|].
  split; [apply getAdjacentIntersections_length|].
  split; [|split; [|split]].
  - rewrite elem_of_getAdjacentIntersections. intros [_ Ho].
    unfold orthogonal in Ho. lia.
  - intros q Hq. by apply elem_of_getAdjacentIntersections in Hq as [? _].
  - intros H1 H2 H3 H4. unfold getAdjacentIntersections, deltas.
    cbn [map i j].
    repeat (rewrite filter_cons, decide_True;
            [|apply inBounds_spec; cbn [i j]; lia]).
    rewrite filter_nil.
    replace (-1 + i p) with (i p - 1) by lia.
    replace (0 + i p) with (i p) by lia.
    replace (0 + j p) with (j p) by lia.
    replace (1 + j p) with (j p + 1) by lia.
    replace (1 + i p) with (i p + 1) by lia.
    replace (-1 + j p) with (j p - 1) by lia.
    reflexivity.
  - intros Hout. unfold getAdjacentIntersections, deltas. cbn [map i j].
    repeat (rewrite filter_cons, decide_False;
            [|rewrite inBounds_spec; cbn [i j]; lia]).
    by rewrite filter_nil.
Qed.

Lemma adjacent_intersections_shape_witness :
  getAdjacentIntersections 3 (mkPoint 1 1)
  = [mkPoint 0 1; mkPoint 1 2; mkPoint 2 1; mkPoint 1 0].
Proof.
  apply (proj1 (proj2 (proj2 (proj2 (proj2
           (adjacent_intersections_shape 3 (mkPoint 1 1))))))); cbn; lia.
Defined.

Lemma Range0_lookup size k :
  (k < Z.to_nat size)%nat → Range0 size !! k = Some (Z.of_nat k).
Proof.
  intros Hk. unfold Range0. rewrite list_lookup_fmap.
  by rewrite lookup_seq_lt.
Qed.

Lemma grid_lookup {A} (f : Z → Z → A) (rows cols : list Z) r c a b :
  rows !! r = Some a → cols !! c = Some b →
  flat_map (λ a, map (f a) cols) rows !! (r * length cols + c)%nat
  = Some (f a b).
Proof.
  revert r. induction rows as [|a0 rows IH]; intros r Hr Hc; [done|].
  cbn [flat_map]. destruct r as [|r]; cbn in Hr.
  - injection Hr as ->.
    replace (0 * length cols + c)%nat with c by lia.
    rewrite lookup_app_l.
    + by rewrite list_lookup_fmap, Hc.
    + rewrite length_map. by apply lookup_lt_Some in Hc.
  - rewrite lookup_app_r by (rewrite length_map; lia).
    rewrite length_map.
    replace (S r * length cols + c - length cols)%nat
      with (r * length cols + c)%nat by lia.
    by apply IH.
Qed.

(** X3. [allPositions] lists the intersections of the board row by row:
    the point in row [a] and column [b] is the entry number [a·size + b];
    the list has size² entries, no point twice, and no point off the
    board. *)
Theorem allPositions_row_major (size a b : Z) :
  0 <= a < size → 0 <= b < size →
  allPositions size !! Z.to_nat (a * size + b) = Some (mkPoint a b)
  ∧ length (allPositions size) = Z.to_nat (size * size)
  ∧ NoDup (allPositions size)
  ∧ ∀ p, p ∈ allPositions size ↔ inBounds size p = true.
Proof.
  intros Ha Hb. split; [|split; [|split]].
  - unfold allPositions.
    replace (Z.to_nat (a * size + b))
      with (Z.to_nat a * length (Range0 size) + Z.to_nat b)%nat
      by (rewrite Range0_length; nia).
    rewrite (grid_lookup mkPoint _ _ _ _ (Z.of_nat (Z.to_nat a))
               (Z.of_nat (Z.to_nat b))).
    + f_equal. f_equal; lia.
    + apply Range0_lookup. lia.
    + apply Range0_lookup. lia.
  - rewrite allPositions_length. nia.
  - apply allPositions_NoDup.
  - intros p. apply elem_of_allPositions.
Qed.

Lemma allPositions_row_major_witness :
  allPositions 3 !! Z.to_nat (1 * 3 + 2) = Some (mkPoint 1 2)
  ∧ length (allPositions 3) = Z.to_nat (3 * 3).
Proof.
  destruct (allPositions_row_major 3 1 2) as (H1 & H2 & _); [lia|lia|].
  split; [exact H1|exact H2].
Defined.

(** ** The accessors *)

(** X4. [getIntersections] and [toArray] give the grid of the board: size
    rows of size entries each, and the entry in row [a] and column [b] is
    what [Board.getStone] returns for [[a, b]]. *)
Theorem getIntersections_grid (B : Board) (a b : Z) :
  0 <= a < board_size B → 0 <= b < board_size B →
  (getIntersections B !! Z.to_nat a ≫= (.!! Z.to_nat b))
  = Some (Board_getStone B (a, b))
  ∧ toArray B = getIntersections B
  ∧ length (getIntersections B) = Z.to_nat (board_size B)
  ∧ Forall (λ row, length row = Z.to_nat (board_size B)) (getIntersections B).
Proof.
  intros Ha Hb. unfold toArray, getIntersections, Board_getStone.
  split; [|split; [done|split]].
  - rewrite list_lookup_fmap, Range0_lookup by lia. cbn.
    rewrite list_lookup_fmap, Range0_lookup by lia. cbn.
    do 3 f_equal; lia.
  - by rewrite length_map, Range0_length.
  - apply Forall_fmap, Forall_forall. intros x _. cbn.
    by rewrite length_map, Range0_length.
Qed.

Lemma getIntersections_grid_witness :
  (getIntersections crossBoard !! Z.to_nat 0 ≫= (.!! Z.to_nat 1))
  = Some (Board_getStone crossBoard (0, 1))
  ∧ length (getIntersections crossBoard) = Z.to_nat 3.
Proof.
  destruct (getIntersections_grid crossBoard 0 1) as (H1 & _ & H2 & _).
  - cbn. lia.
  - cbn. lia.
  - split; [exact H1|exact H2].
Defined.

(** X5. [getStones] lists, without repetition, the coordinates of the keys
    of the stones mapping that are bound to the colour, on the board or off
    it. For BLACK and WHITE these are the coordinates at which
    [Board.getStone] returns the colour; for EMPTY they are the keys bound
    to EMPTY only, not the intersections without a key. *)
Theorem getStones_lists_keys (B : Board) (color : Color) :
  NoDup (getStones B color)
  ∧ (∀ coords : Z * Z,
       coords ∈ getStones B color
       ↔ board_stones B !! mkPoint coords.1 coords.2 = Some color)
  ∧ (color ≠ EMPTY →
     ∀ coords : Z * Z,
       coords ∈ getStones B color ↔ Board_getStone B coords = color)
  ∧ (∀ coords : Z * Z,
       board_stones B !! mkPoint coords.1 coords.2 = None →
       (coords ∉ getStones B EMPTY) ∧ Board_getStone B coords = EMPTY).
Proof.
  assert (∀ c (coords : Z * Z),
            coords ∈ getStones B c
            ↔ board_stones B !! mkPoint coords.1 coords.2 = Some c) as Hin.
  { intros c [a b]. unfold getStones. cbn [fst snd].
    rewrite list_elem_of_fmap. split.
    - intros (pt & [= -> ->] & Hpt).
      apply list_elem_of_fmap in Hpt as ([pt' c'] & -> & Hkv).
      apply elem_of_map_to_list, map_lookup_filter_Some in Hkv as [Hl Hc].
      cbn in *. subst c'. by destruct pt'.
    - intros Hl. exists (mkPoint a b). split; [done|].
      apply list_elem_of_fmap. exists (mkPoint a b, c). split; [done|].
      by apply elem_of_map_to_list, map_lookup_filter_Some. }
  split; [|split; [apply Hin|split]].
  - unfold getStones. apply NoDup_fmap_2.
    + intros [] [] [=]. by subst.
    + apply NoDup_fst_map_to_list.
  - intros Hne coords. rewrite Hin. unfold Board_getStone, getStone.
    destruct (board_stones B !! _) as [c|]; cbn; [|done].
    split; congruence.
  - intros coords Hnone. rewrite Hin, Hnone.
    unfold Board_getStone, getStone. by rewrite Hnone.
Qed.

(** ** More on play *)

Lemma removedBy_finalCaptured color stns size p captured newGroup q :
  capturedGroups color stns size p = Some captured →
  getGroup stns size p = Some newGroup →
  removedBy color stns size p q
  ↔ ∃ g, g ∈ finalCaptured captured newGroup ∧ q ∈ stones g.
Proof.
  intros Hc Hn. unfold removedBy, finalCaptured.
  destruct captured as [|g0 l].
  - rewrite bool_decide_eq_true_2 by done. cbn [andb].
    assert (∀ g, ¬ deadNeighborGroup color stns size p g) as Hnone.
    { intros g Hg. apply (elem_of_capturedGroups _ _ _ _ _ _ Hc) in Hg.
      by apply elem_of_nil in Hg. }
    destruct (isDead newGroup) eqn:Hd.
    + apply isDead_spec in Hd. split.
      * intros [(g & Hg & _)|(_ & own & Hown & _ & Hq)];
          [by destruct (Hnone g)|].
        exists newGroup. split; [by left|congruence].
      * intros (g & ->%list_elem_of_singleton & Hq). right.
        split; [done|]. by exists newGroup.
    + split.
      * intros [(g & Hg & _)|(_ & own & Hown & Hl & _)];
          [by destruct (Hnone g)|].
        assert (own = newGroup) as -> by congruence.
        apply isDead_spec in Hl. congruence.
      * by intros (g & ?%elem_of_nil & _).
  - rewrite bool_decide_eq_false_2 by done. cbn [andb].
    assert (deadNeighborGroup color stns size p g0) as Hg0.
    { apply (elem_of_capturedGroups _ _ _ _ _ _ Hc). by left. }
    split.
    + intros [(g & Hg & Hq)|(Hnone & _)]; [|by destruct (Hnone g0)].
      exists g. split; [|done].
      by apply (elem_of_capturedGroups _ _ _ _ _ _ Hc).
    + intros (g & Hg & Hq). left. exists g. split; [|done].
      by apply (elem_of_capturedGroups _ _ _ _ _ _ Hc).
Qed.

Lemma removedBy_dec color stns size p q :
  removedBy color stns size p q ∨ ¬ removedBy color stns size p q.
Proof.
  destruct (capturedGroups_spec color stns size p) as (captured & Hc & _).
  destruct (getGroup_terminates stns size p) as [newGroup Hn].
  rewrite (removedBy_finalCaptured _ _ _ _ _ _ _ Hc Hn).
  rewrite <- elem_of_capturedStones.
  destruct (decide (q ∈ flat_map (λ g, elements (stones g))
                         (finalCaptured captured newGroup))); tauto.
Qed.

(** A removed point held a stone: one of the opponent, in a group next to
    the played point, or one of the colour of the played stone, connected
    to it. *)
Lemma removedBy_stone color stns size p q :
  removedBy color stns size p q →
  (opponentColor color (getStone stns q) = true
   ∧ ∃ g, deadNeighborGroup color stns size p g ∧ q ∈ stones g)
  ∨ (getStone stns q = getStone stns p
     ∧ (∀ g, ¬ deadNeighborGroup color stns size p g)
     ∧ ∃ own, getGroup stns size p = Some own
              ∧ liberties own = 0%nat ∧ q ∈ stones own).
Proof.
  intros [(g & Hg & Hq)|(Hnone & own & Hown & Hl & Hq)].
  - left. split; [|by exists g].
    destruct Hg as (n & _ & Ho & Hgn & _).
    by rewrite (getGroup_color _ _ _ _ _ Hgn Hq).
  - right. split; [by eapply getGroup_color|]. split; [done|]. by exists own.
Qed.

(** How the board that [play] returns reads: EMPTY at the removed points,
    and as the board with the played stone elsewhere. *)
Lemma play_reads B color (coords : Z * Z) B' :
  let p := mkPoint coords.1 coords.2 in
  let tentative := replaceStone (board_stones B) p color in
  play B color coords = Ok B' →
  board_size B' = board_size B
  ∧ ∀ q, (removedBy color tentative (board_size B) p q →
          board_stones B' !! q = Some EMPTY)
         ∧ (¬ removedBy color tentative (board_size B) p q →
            board_stones B' !! q = tentative !! q).
Proof.
  intros p tentative Hplay.
  destruct (play_Ok_inv B color coords B' Hplay) as [Hb He].
  destruct (play_empty B color coords Hb He)
    as (captured & newGroup & Hc & Hn & Hplay').
  fold p in Hc, Hn, Hplay'. fold tentative in Hc, Hn, Hplay'.
  rewrite Hplay' in Hplay. injection Hplay as <-.
  cbn [board_size board_stones]. split; [done|].
  intros q. rewrite (removedBy_finalCaptured _ _ _ _ _ _ _ Hc Hn). split.
  - intros (g & Hg & Hq). by eapply removeStones_captured.
  - intros Hq. apply removeStones_other. intros g Hg Hin.
    apply Hq. by exists g.
Qed.



(** X7. What one move changes: the size stays; away from the played point
    an intersection reads as before or has become EMPTY, so no stone appears
    or changes colour; and stones of one colour only are taken. Either the
    played stone stands and every stone of its colour stays, or the played
    point is EMPTY again and every intersection that did not hold the colour
    of the move reads as before. *)
Theorem play_takes_one_colour (B B' : Board) (color : Color) (coords : Z * Z) :
  let p := mkPoint coords.1 coords.2 in
  color = BLACK ∨ color = WHITE →
  play B color coords = Ok B' →
  board_size B' = board_size B
  ∧ (∀ q, q ≠ p →
          getStone (board_stones B') q = getStone (board_stones B) q
          ∨ getStone (board_stones B') q = EMPTY)
  ∧ ((getStone (board_stones B') p = color
      ∧ ∀ q, getStone (board_stones B) q = color →
             getStone (board_stones B') q = color)
     ∨ (getStone (board_stones B') p = EMPTY
        ∧ ∀ q, getStone (board_stones B) q ≠ color →
               getStone (board_stones B') q = getStone (board_stones B) q)).
Proof.
  intros p Hcolor Hplay.
  assert (color ≠ EMPTY) as Hne by (by destruct Hcolor as [-> | ->]).
  destruct (play_Ok_inv B color coords B' Hplay) as [Hb He]. fold p in Hb, He.
  destruct (play_reads B color coords B' Hplay) as [Hsize Hread].
  fold p in Hread.
  set (tentative := replaceStone (board_stones B) p color) in *.
  assert (∀ q, removedBy color tentative (board_size B) p q →
               getStone (board_stones B') q = EMPTY) as Hrem.
  { intros q Hq. unfold getStone. by rewrite (proj1 (Hread q) Hq). }
  assert (∀ q, ¬ removedBy color tentative (board_size B) p q →
               getStone (board_stones B') q = getStone tentative q) as Hkeep.
  { intros q Hq. unfold getStone. by rewrite (proj2 (Hread q) Hq). }
  assert (getStone tentative p = color) as Hp
    by apply getStone_replaceStone_eq.
  assert (∀ q, q ≠ p → getStone tentative q = getStone (board_stones B) q)
    as Hother.
  { intros q Hq. by apply getStone_replaceStone_ne. }
  split; [done|]. split.
  - intros q Hq.
    destruct (removedBy_dec color tentative (board_size B) p q) as [Hr|Hr].
    + right. by apply Hrem.
    + left. rewrite Hkeep, Hother; done.
  - destruct (removedBy_dec color tentative (board_size B) p p) as [Hr|Hr].
    + right. split; [by apply Hrem|].
      apply removedBy_stone in Hr as [[Ho _]|(_ & Hnone & Hown)].
      { rewrite Hp in Ho. apply opponentColor_spec in Ho. tauto. }
      intros q Hq. destruct (decide (q = p)) as [->|Hqp].
      { rewrite He. by apply Hrem; right. }
      rewrite Hkeep, Hother; [done..|].
      intros [[_ (g & Hg & _)]|(Hc & _)]%removedBy_stone;
        [by destruct (Hnone g)|].
      rewrite Hother, Hp in Hc; done.
    + left. split; [by rewrite Hkeep|].
      intros q Hq.
      assert (q ≠ p) as Hqp by (intros ->; congruence).
      rewrite Hkeep, Hother; [done..|].
      intros [[Ho _]|(_ & Hnone & own & Hown & Hl & Hq')]%removedBy_stone.
      * rewrite Hother, Hq in Ho by done.
        apply opponentColor_spec in Ho. tauto.
      * apply Hr. right. split; [done|]. exists own.
        split; [done|]. split; [done|]. by eapply getGroup_seed.
Qed.

Lemma play_takes_one_colour_witness :
  ∃ B', play cornerBoard BLACK (1, 0) = Ok B'
        ∧ board_size B' = 3
        ∧ (getStone (board_stones B') (mkPoint 0 0) = WHITE
           ∨ getStone (board_stones B') (mkPoint 0 0) = EMPTY).
Proof.
  eexists. split; [vm_compute; reflexivity|].
  destruct (play_takes_one_colour cornerBoard
              (mkBoard 3 (<[mkPoint 0 0 := EMPTY]> (<[mkPoint 1 0 := BLACK]>
                         (board_stones cornerBoard))))
              BLACK (1, 0)) as (Hsize & Hq & _).
  - by left.
  - vm_compute. reflexivity.
  - split; [exact Hsize|]. apply (Hq (mkPoint 0 0)). intros [=].
Defined.

(** ** Liberties along a game *)

Lemma adjacency_symmetric_aux size p x :
  inBounds size p = true → inBounds size x = true →
  p ∈ getAdjacentIntersections size x → x ∈ getAdjacentIntersections size p.
Proof.
  intros Hp Hx. rewrite !elem_of_getAdjacentIntersections.
  intros [_ Ho]. split; [done|by apply orthogonal_sym].
Qed.

Lemma liberties_hasLiberty stns size seed g :
  getGroup stns size seed = Some g → getStone stns seed ≠ EMPTY →
  liberties g ≠ 0%nat ↔ hasLiberty stns size seed.
Proof.
  intros Hg Hne. apply getGroup_spec in Hg as [Hs Hsu Hl].
  rewrite Hl, map_size_ne_0_lookup. unfold hasLiberty. split.
  - intros (n & c & Hn). apply map_lookup_filter_Some in Hn as [Hn Hc].
    cbn in Hc. subst c. apply Hsu in Hn as ((x & Hx & Hadj) & _ & He).
    exists x, n. split; [by apply Hs|]. split; [done|]. by symmetry.
  - intros (x & n & Hx & Hadj & He). exists n, EMPTY.
    apply map_lookup_filter_Some. split; [|done].
    apply Hsu. split; [|split; [congruence|done]].
    exists x. split; [by apply Hs|done].
Qed.

(** A path of the board [stns] is a path of every board that reads the same
    along it. *)
Lemma connected_transfer stns stns' size seed x :
  (∀ y, connected stns size seed y → getStone stns' y = getStone stns y) →
  connected stns size seed x → connected stns' size seed x.
Proof.
  intros Hsame Hx. unfold connected in *.
  rewrite (Hsame seed (rtc_refl _ _)).
  revert x Hx.
  apply (rtc_ind_r (λ z, rtc (link stns' size (getStone stns seed)) seed z)).
  - apply rtc_refl.
  - intros y z Hy [Hadj Hc] IH. eapply rtc_r; [exact IH|].
    split; [done|]. rewrite Hsame; [done|].
    eapply rtc_r; [exact Hy|]. by split.
Qed.

(** The removed points are whole groups of the board. *)
Lemma removedBy_closed color stns size p q x :
  inBounds size p = true → inBounds size q = true →
  connected stns size q x →
  removedBy color stns size p x → removedBy color stns size p q.
Proof.
  intros Hp Hq Hqx Hx.
  assert (∀ seed g, inBounds size seed = true →
                    getGroup stns size seed = Some g → x ∈ stones g →
                    q ∈ stones g) as Hback.
  { intros seed g Hb Hg Hin. pose proof (getGroup_spec _ _ _ _ Hg) as Hspec.
    apply (gs_stones _ _ _ _ Hspec).
    apply connected_trans with x; [by apply (gs_stones _ _ _ _ Hspec)|].
    by apply connected_sym. }
  destruct Hx as [(g & Hg & Hin)|(Hnone & own & Hown & Hl & Hin)].
  - left. exists g. split; [done|].
    destruct Hg as (n & Hn & _ & Hgn & _).
    apply (Hback n); [|done..].
    by apply elem_of_getAdjacentIntersections in Hn as [? _].
  - right. split; [done|]. exists own. split; [done|]. split; [done|].
    by apply (Hback p).
Qed.

(** One move keeps the board free of groups without liberty. *)
Lemma play_noDeadGroup B color coords B' :
  color ≠ EMPTY → noDeadGroup B → play B color coords = Ok B' →
  noDeadGroup B'.
Proof.
  intros Hne Halive Hplay q g' Hq Hstone Hg'.
  destruct (play_Ok_inv B color coords B' Hplay) as [Hb He].
  destruct (play_reads B color coords B' Hplay) as [Hsize Hread].
  set (p := mkPoint coords.1 coords.2) in *.
  set (S := board_stones B) in *.
  set (size := board_size B) in *.
  set (T := replaceStone S p color) in *.
  set (S' := board_stones B') in *.
  rewrite Hsize in Hq, Hg'. fold size in Hq, Hg'.
  apply (liberties_hasLiberty _ _ _ _ Hg' Hstone).
  assert (∀ y, removedBy color T size p y → getStone S' y = EMPTY) as Hrem.
  { intros y Hy. unfold getStone. by rewrite (proj1 (Hread y) Hy). }
  assert (∀ y, ¬ removedBy color T size p y → getStone S' y = getStone T y)
    as Hkeep.
  { intros y Hy. unfold getStone. by rewrite (proj2 (Hread y) Hy). }
  assert (getStone T p = color) as HTp by apply getStone_replaceStone_eq.
  assert (∀ y, y ≠ p → getStone T y = getStone S y) as HT.
  { intros y Hy. by apply getStone_replaceStone_ne. }
  assert (∀ y, removedBy color T size p y → getStone T y ≠ EMPTY) as Hremstone.
  { intros y [[Ho _]|(Hc & _)]%removedBy_stone.
    - apply opponentColor_spec in Ho. tauto.
    - congruence. }
  (* [q] is not removed, and its group is the same on [T] and on [S']. *)
  assert (¬ removedBy color T size p q) as Hqkeep.
  { intros Hr. apply Hstone. by apply Hrem. }
  assert (∀ x, connected T size q x → ¬ removedBy color T size p x) as Hgkeep.
  { intros x Hx Hr. apply Hqkeep. by eapply removedBy_closed. }
  assert (∀ x, connected T size q x → connected S' size q x) as Hpath.
  { intros x Hx. apply (connected_transfer T); [|done].
    intros y Hy. apply Hkeep. by apply Hgkeep. }
  assert (getStone T q ≠ EMPTY) as HTq by (by rewrite <- Hkeep).
  destruct (getGroup_terminates T size q) as [gq Hgq].
  destruct (decide (liberties gq = 0%nat)) as [Hdead|Hlive].
  2:{ (* the group has a liberty with the played stone on the board *)
    apply (liberties_hasLiberty _ _ _ _ Hgq HTq) in Hlive
      as (x & n & Hx & Hadj & Hempty).
    exists x, n. split; [by apply Hpath|]. split; [done|].
    rewrite Hkeep; [done|]. intros Hr. by apply (Hremstone n). }
  pose proof (getGroup_spec _ _ _ _ Hgq) as Hspec.
  destruct (decide (p ∈ stones gq)) as [Hpin|Hpout].
  - (* the group of the played stone: it took a group of the opponent *)
    pose proof (getGroup_member _ _ _ _ _ Hq Hgq Hpin) as Hown.
    destruct (capturedGroups_spec color T size p) as (captured & Hc & _).
    destruct captured as [|g0 l].
    + exfalso. apply Hqkeep. right. split.
      * intros g Hg. apply (elem_of_capturedGroups _ _ _ _ _ _ Hc) in Hg.
        by apply elem_of_nil in Hg.
      * exists gq. split; [done|]. split; [done|]. by eapply getGroup_seed.
    + assert (deadNeighborGroup color T size p g0) as Hg0.
      { apply (elem_of_capturedGroups _ _ _ _ _ _ Hc). by left. }
      pose proof Hg0 as (n & Hn & _ & Hgn & _).
      exists p, n. split; [|split; [done|]].
      * apply Hpath. by apply (gs_stones _ _ _ _ Hspec).
      * apply Hrem. left. exists g0. split; [done|]. by eapply getGroup_seed.
  - (* another group: it had a liberty before the move, which the move
       took, so it is a group of the opponent next to the played point *)
    exfalso.
    assert (q ≠ p) as Hqp.
    { intros ->. apply Hpout. by eapply getGroup_seed. }
    assert (getStone S q ≠ EMPTY) as HSq by (by rewrite <- HT).
    destruct (getGroup_terminates S size q) as [g Hg].
    pose proof (Halive q g Hq HSq Hg) as Hlib.
    apply (liberties_hasLiberty _ _ _ _ Hg HSq) in Hlib
      as (x & n & Hx & Hadj & Hempty).
    assert (connected T size q x) as HxT.
    { apply (connected_transfer S); [|done].
      intros y Hy. apply HT. intros ->.
      apply connected_color in Hy. congruence. }
    assert (x ∈ stones gq) as Hxin by (by apply (gs_stones _ _ _ _ Hspec)).
    assert (n = p) as ->.
    { destruct (decide (n = p)) as [|Hnp]; [done|]. exfalso.
      apply (liberties_hasLiberty _ _ _ _ Hgq HTq); [|done].
      exists x, n. split; [done|]. split; [done|]. by rewrite HT. }
    assert (inBounds size x = true) as Hxb
      by exact (connected_inBounds T size q x Hq HxT).
    assert (x ∈ getAdjacentIntersections size p) as Hxadj
      by (by apply adjacency_symmetric_aux).
    assert (getStone T x = getStone T q) as Hxc
      by exact (connected_color T size q x HxT).
    destruct (decide (getStone T q = color)) as [Hcol|Hcol].
    + apply Hpout. apply (gs_stones _ _ _ _ Hspec).
      eapply rtc_r; [exact HxT|]. split; [done|]. congruence.
    + apply Hqkeep. left. exists gq. split; [|by eapply getGroup_seed].
      exists x. split; [done|]. split; [|split; [|done]].
      * apply opponentColor_spec. split; congruence.
      * by apply (getGroup_member _ _ q).
Qed.

Lemma noDeadGroup_cornerBoard : noDeadGroup cornerBoard.
Proof.
  intros q g _ Hstone Hg. cbn [board_stones board_size cornerBoard] in *.
  destruct (decide (q = mkPoint 0 0)) as [->|H00].
  { vm_compute in Hg. injection Hg as <-. cbn [liberties]. lia. }
  destruct (decide (q = mkPoint 0 1)) as [->|H01].
  { vm_compute in Hg. injection Hg as <-. cbn [liberties]. lia. }
  exfalso. apply Hstone. unfold getStone.
  by rewrite !lookup_insert_ne, lookup_empty.
Qed.

(** X8. A move of BLACK or WHITE keeps the board free of dead groups: if on
    the board every group of stones has a liberty, then so it is on the
    board that a successful [play] returns, whether the move takes stones of
    the opponent, takes its own group, or takes nothing. *)
Theorem play_keeps_liberties (B B' : Board) (color : Color) (coords : Z * Z) :
  color = BLACK ∨ color = WHITE →
  noDeadGroup B →
  play B color coords = Ok B' →
  noDeadGroup B'
  ∧ ∀ q, inBounds (board_size B') q = true →
         getStone (board_stones B') q ≠ EMPTY →
         hasLiberty (board_stones B') (board_size B') q.
Proof.
  intros Hcolor Halive Hplay.
  assert (noDeadGroup B') as Halive'.
  { apply (play_noDeadGroup B color coords); [|done..].
    by destruct Hcolor as [-> | ->]. }
  split; [done|]. intros q Hq Hstone.
  destruct (getGroup_terminates (board_stones B') (board_size B') q)
    as [g Hg].
  apply (liberties_hasLiberty _ _ _ _ Hg Hstone). by apply (Halive' q).
Qed.

Lemma play_keeps_liberties_witness : noDeadGroup cornerResult.
Proof.
  apply (play_keeps_liberties cornerBoard cornerResult BLACK (1, 0)).
  - by left.
  - exact noDeadGroup_cornerBoard.
  - vm_compute. reflexivity.
Defined.

(** X9. On every board reached from [createBoard] without initial stones
    by successful plays of BLACK and WHITE stones, every group of stones
    has a liberty: [getGroup] reports no group of stones with zero
    liberties. *)
Theorem reachable_board_has_no_dead_group (size : Z) (B0 B : Board)
    (moves : list (Color * (Z * Z))) :
  createBoard (Some size) None = Ok B0 →
  Forall (λ m : Color * (Z * Z), m.1 = BLACK ∨ m.1 = WHITE) moves →
  playAll B0 moves = Ok B →
  noDeadGroup B.
Proof.
  intros Hcreate Hmoves Hplay.
  assert (noDeadGroup B0) as H0.
  { unfold createBoard in Hcreate. destruct (size <? 0); [done|].
    injection Hcreate as <-. intros q g _ Hstone. exfalso. apply Hstone.
    unfold getStone. cbn. by rewrite lookup_empty. }
  clear Hcreate. revert B0 H0 Hplay.
  induction Hmoves as [|[color coords] moves Hm _ IH]; intros B0 H0 Hplay.
  - by injection Hplay as <-.
  - cbn [playAll] in Hplay.
    destruct (play B0 color coords) as [B1| |] eqn:Hp; [|done|done].
    apply (IH B1); [|done].
    apply (play_noDeadGroup B0 color coords); [|done..].
    cbn [fst] in Hm. by destruct Hm as [-> | ->].
Qed.

Lemma reachable_board_has_no_dead_group_witness : noDeadGroup cornerResult.
Proof.
  apply (reachable_board_has_no_dead_group 3 (mkBoard 3 ∅) cornerResult
           cornerMoves).
  - reflexivity.
  - repeat (apply Forall_cons; split; [cbn; auto|]). apply Forall_nil_2.
  - vm_compute. reflexivity.
Defined.

(** ** More on getGroup *)

(** Group search at an EMPTY intersection of the board returns a group
    all the same: the region of EMPTY intersections connected to the seed,
    with zero liberties, whose [surrounding] holds stones only. *)
Lemma getGroup_empty_seed (stns : gmap Point Color) (size : Z)
    (seed : Point) :
  inBounds size seed = true →
  getStone stns seed = EMPTY →
  ∃ g, getGroup stns size seed = Some g
       ∧ liberties g = 0%nat
       ∧ seed ∈ stones g
       ∧ (∀ x, x ∈ stones g → inBounds size x = true ∧ getStone stns x = EMPTY)
       ∧ (∀ n c, surrounding g !! n = Some c →
                 c ≠ EMPTY ∧ c = getStone stns n ∧ inBounds size n = true).
Proof.
  intros Hb He.
  destruct (getGroup_terminates stns size seed) as [g Hg].
  pose proof (getGroup_spec _ _ _ _ Hg) as [Hs Hsu Hl].
  exists g. split; [done|].
  assert (∀ n c, surrounding g !! n = Some c →
                 c ≠ EMPTY ∧ c = getStone stns n ∧ inBounds size n = true)
    as Hsurr.
  { intros n c Hn. apply Hsu in Hn as ((x & _ & Hadj) & Hne & ->).
    split; [congruence|]. split; [done|].
    by apply elem_of_getAdjacentIntersections in Hadj as [? _]. }
  split; [|split; [by eapply getGroup_seed|split; [|done]]].
  - rewrite Hl. apply map_size_empty_iff, map_empty. intros n.
    apply eq_None_not_Some. intros [c Hc].
    apply map_lookup_filter_Some in Hc as [Hc Hempty]. cbn in Hempty.
    by destruct (Hsurr n c Hc) as [? _].
  - intros x Hx. split; [by eapply getGroup_inBounds|].
    rewrite <- He. by eapply getGroup_color.
Qed.

(** X11. The groups found from two points of the board are one group or
    have no point in common: the search from any member of a group returns
    that same group, with the same stones, liberties and surrounding. *)
Theorem groups_equal_or_disjoint (stns : gmap Point Color) (size : Z)
    (p q : Point) (gp gq : Group) :
  inBounds size p = true → inBounds size q = true →
  getGroup stns size p = Some gp →
  getGroup stns size q = Some gq →
  (q ∈ stones gp → gp = gq)
  ∧ (q ∈ stones gp ↔ p ∈ stones gq)
  ∧ (gp = gq ∨ stones gp ## stones gq).
Proof.
  intros Hp Hq Hgp Hgq.
  assert (q ∈ stones gp → gp = gq) as H1.
  { intros Hin. pose proof (getGroup_member _ _ _ _ _ Hp Hgp Hin). congruence. }
  assert (p ∈ stones gq → gp = gq) as H2.
  { intros Hin. pose proof (getGroup_member _ _ _ _ _ Hq Hgq Hin). congruence. }
  split; [done|]. split.
  - split; intros Hin.
    + rewrite <- (H1 Hin). by eapply getGroup_seed.
    + rewrite (H2 Hin). by eapply getGroup_seed.
  - destruct (decide (gp = gq)) as [|Hne]; [by left|right].
    intros x Hxp Hxq. apply Hne.
    pose proof (getGroup_member _ _ _ _ _ Hp Hgp Hxp).
    pose proof (getGroup_member _ _ _ _ _ Hq Hgq Hxq). congruence.
Qed.

Lemma groups_equal_or_disjoint_witness :
  ∃ gq, getGroup bentTentative 3 (mkPoint 0 2) = Some gq
        ∧ (mkPoint 0 2 ∈ stones bentGroup ↔ mkPoint 0 1 ∈ stones gq)
        ∧ (bentGroup = gq ∨ stones bentGroup ## stones gq).
Proof.
  destruct (getGroup bentTentative 3 (mkPoint 0 2)) as [gq|] eqn:Hq;
    [|vm_compute in Hq; discriminate Hq].
  exists gq. split; [reflexivity|].
  apply (groups_equal_or_disjoint bentTentative 3 (mkPoint 0 1) (mkPoint 0 2)
           bentGroup gq).
  - vm_compute. reflexivity.
  - vm_compute. reflexivity.
  - vm_compute. reflexivity.
  - exact Hq.
Defined.

(** X12. [surrounding] is the boundary of the group: its keys are the
    intersections of the board outside the group that are next to a member,
    each bound to the colour it holds, which is not the colour of the
    group. *)
Theorem surrounding_is_boundary (stns : gmap Point Color) (size : Z)
    (seed : Point) (g : Group) :
  getGroup stns size seed = Some g →
  (∀ n, is_Some (surrounding g !! n)
        ↔ inBounds size n = true ∧ (n ∉ stones g)
          ∧ ∃ x, x ∈ stones g ∧ orthogonal x n)
  ∧ (∀ n c, surrounding g !! n = Some c →
            c = getStone stns n ∧ c ≠ getStone stns seed).
Proof.
  intros Hg. pose proof (getGroup_spec _ _ _ _ Hg) as Hspec.
  destruct Hspec as [Hs Hsu Hl]. split.
  - intros n. split.
    + intros [c Hc]. apply Hsu in Hc as ((x & Hx & Hadj) & Hne & _).
      apply elem_of_getAdjacentIntersections in Hadj as [Hb Ho].
      split; [done|]. split; [|by exists x].
      intros Hin. apply Hne. by eapply getGroup_color.
    + intros (Hb & Hout & x & Hx & Ho).
      exists (getStone stns n). apply Hsu. split; [|split; [|done]].
      * exists x. split; [done|]. by apply elem_of_getAdjacentIntersections.
      * by apply (groupSpec_maximal stns size seed g x n
                    (getGroup_spec _ _ _ _ Hg)).
  - intros n c Hc. apply Hsu in Hc as (_ & Hne & ->). done.
Qed.

Lemma surrounding_is_boundary_witness :
  is_Some (surrounding bentGroup !! mkPoint 1 1)
  ↔ inBounds 3 (mkPoint 1 1) = true ∧ (mkPoint 1 1 ∉ stones bentGroup)
    ∧ ∃ x, x ∈ stones bentGroup ∧ orthogonal x (mkPoint 1 1).
Proof.
  apply (proj1 (surrounding_is_boundary bentTentative 3 (mkPoint 0 1) bentGroup
                  ltac:(vm_compute; reflexivity))).
Defined.

(** ** The score, point by point *)

Lemma elements_one_color (X : gset Color) c :
  elements X = [c] ↔ X = {[c]}.
Proof.
  split; [|intros ->; apply elements_singleton].
  intros H. apply set_eq. intros x.
  by rewrite <- elem_of_elements, H, list_elem_of_singleton, elem_of_singleton.
Qed.

Lemma owner_of_region stns size seed g x :
  inBounds size seed = true → getGroup stns size seed = Some g →
  x ∈ stones g → owner stns size x = owner stns size seed.
Proof.
  intros Hb Hg Hx. unfold owner.
  rewrite (getGroup_color _ _ _ _ _ Hg Hx).
  by rewrite (getGroup_member _ _ _ _ _ Hb Hg Hx), Hg.
Qed.

Lemma owner_contribution stns size seed g c :
  c = BLACK ∨ c = WHITE → getGroup stns size seed = Some g →
  contribution stns c (seed, g)
  = if decide (owner stns size seed = Some c) then regionSize (seed, g) else 0.
Proof.
  intros Hc Hg. unfold contribution, owner. cbn [fst snd]. rewrite Hg.
  destruct (getStone stns seed) eqn:He.
  - rewrite decide_True by done. apply decide_ext.
    rewrite <- elements_one_color.
    destruct (elements (surroundingColors g)) as [|c' [|c'' l]];
      split; congruence.
  - rewrite decide_False by done. apply decide_ext. split; congruence.
  - rewrite decide_False by done. apply decide_ext. split; congruence.
Qed.

Lemma owned_in_regions (P : Point → Prop) `{∀ x, Decision (P x)}
    (f : Point * Group → Z) (regs : list (Point * Group)) :
  disjointRegions regs →
  (∀ r, r ∈ regs →
        f r = Z.of_nat (base.size (filter P (stones r.2)))) →
  sumZ (map f regs) = Z.of_nat (base.size (filter P (regionStones regs))).
Proof.
  induction regs as [|r regs IH]; intros Hd Hf.
  - unfold regionStones, sumZ. cbn.
    replace (filter P (∅ : gset Point)) with (∅ : gset Point) by set_solver.
    by rewrite size_empty.
  - destruct Hd as [Hr Hd].
    rewrite regionStones_cons, filter_union_L, size_union.
    + unfold sumZ in *. cbn [map foldr].
      rewrite (Hf r) by (by left). rewrite IH; [lia|done|].
      intros r' Hr'. apply Hf. by right.
    + intros x [_ Hx1]%elem_of_filter [_ Hx2]%elem_of_filter.
      by apply (Hr x).
    + apply _.
Qed.

Lemma areaScore_owned (B : Board) (c : Color) :
  c = BLACK ∨ c = WHITE →
  ∃ s, areaScore B = Some s
       ∧ scoreOf c s = Z.of_nat (base.size (ownedPoints B c)).
Proof.
  intros Hc.
  destruct (areaScore_sums B) as (s & Hs & HB & HW).
  exists s. split; [done|].
  destruct (regions_partition B) as (Hdisj & Hcover & _).
  unfold ownedPoints. rewrite <- Hcover.
  rewrite <- (owned_in_regions _ (contribution (board_stones B) c));
    [|done|].
  - by destruct Hc as [-> | ->].
  - intros [seed g] Hr. apply regions_getGroup in Hr as [Hb Hg].
    cbn [fst snd] in *.
    rewrite (owner_contribution _ _ _ _ _ Hc Hg). unfold regionSize. cbn [snd].
    case_decide as Ho.
    + do 2 f_equal. apply set_eq. intros x. rewrite elem_of_filter.
      split; [|tauto]. intros Hx. split; [|done].
      by rewrite (owner_of_region _ _ _ _ _ Hb Hg Hx).
    + replace (filter _ (stones g)) with (∅ : gset Point);
        [by rewrite size_empty|].
      symmetry. apply set_eq. intros x. rewrite elem_of_filter.
      split; [|set_solver]. intros [Hx Hin]. exfalso. apply Ho.
      by rewrite <- (owner_of_region _ _ _ _ _ Hb Hg Hin).
Qed.

(** The score of a colour is the number of intersections of the board
    that count for it: those that hold a stone of the colour and the EMPTY
    ones whose region has the colour as the only colour of its surrounding.
    The scores do not depend on the order in which the loop meets the
    regions, and each is at least the number of stones of the colour on the
    board. *)
Lemma areaScore_owned_points (B : Board) :
  ∃ s, areaScore B = Some s
       ∧ score_BLACK s = Z.of_nat (base.size (ownedPoints B BLACK))
       ∧ score_WHITE s = Z.of_nat (base.size (ownedPoints B WHITE))
       ∧ ∀ c p, c ≠ EMPTY → inBounds (board_size B) p = true →
                getStone (board_stones B) p = c → p ∈ ownedPoints B c.
Proof.
  destruct (areaScore_owned B BLACK) as (s & Hs & HB); [by left|].
  destruct (areaScore_owned B WHITE) as (s' & Hs' & HW); [by right|].
  assert (s' = s) as -> by congruence.
  exists s. split; [done|]. split; [done|]. split; [done|].
  intros c p Hc Hb Hp. unfold ownedPoints. apply elem_of_filter.
  split; [|by apply elem_of_boardPoints].
  unfold owner. rewrite Hp. by destruct c.
Qed.

(** X14. A colour without a stone on the board scores nothing; on a board
    whose intersections are all EMPTY both scores are zero, whatever the
    size. *)
Theorem areaScore_without_stones (B : Board) (c : Color) :
  c = BLACK ∨ c = WHITE →
  (∀ p, inBounds (board_size B) p = true → getStone (board_stones B) p ≠ c) →
  ∃ s, areaScore B = Some s ∧ scoreOf c s = 0.
Proof.
  intros Hc Hnone.
  destruct (areaScore_owned B c Hc) as (s & Hs & Hsc).
  exists s. split; [done|]. rewrite Hsc.
  replace (ownedPoints B c) with (∅ : gset Point); [by rewrite size_empty|].
  symmetry. apply set_eq. intros p. unfold ownedPoints.
  rewrite elem_of_filter, elem_of_boardPoints. split; [|set_solver].
  intros [Ho Hb]. exfalso. unfold owner in Ho.
  destruct (getStone (board_stones B) p) eqn:Hp.
  - destruct (getGroup (board_stones B) (board_size B) p) as [g|] eqn:Hg;
      [|done].
    destruct (elements (surroundingColors g)) as [|c' [|c'' l]] eqn:He;
      [done| |done].
    injection Ho as ->.
    assert (c ∈ surroundingColors g) as Hin.
    { apply elem_of_elements. rewrite He. by left. }
    unfold surroundingColors in Hin.
    apply elem_of_list_to_set, list_elem_of_fmap in Hin as ([n c'] & -> & Hin).
    apply elem_of_map_to_list in Hin.
    destruct (getGroup_spec _ _ _ _ Hg) as [_ Hsu _].
    apply Hsu in Hin as ((x & _ & Hadj) & _ & Heq). cbn in Heq.
    apply elem_of_getAdjacentIntersections in Hadj as [Hbn _].
    by apply (Hnone n).
  - injection Ho as <-. by apply (Hnone p).
  - injection Ho as <-. by apply (Hnone p).
Qed.

Lemma areaScore_without_stones_witness :
  ∃ s, areaScore crossBoard = Some s ∧ scoreOf WHITE s = 0.
Proof.
  apply (areaScore_without_stones crossBoard WHITE).
  - by right.
  - intros p _. unfold getStone. cbn [board_stones crossBoard].
    destruct (_ !! p) as [c|] eqn:Hl; cbn; [|done].
    revert Hl. rewrite !lookup_insert, lookup_empty.
    repeat case_decide; congruence.
Defined.

(** ** Boards without intersections, and keys off the board *)

(** X15. A board of size zero, which [createBoard] accepts, has no
    intersection: every [play] on it raises OutOfBounds, its grid has no
    row, and both scores are zero, whatever its stones mapping holds. *)
Theorem zero_size_board (B : Board) :
  board_size B = 0 →
  (∀ color coords, play B color coords = Throw OutOfBounds)
  ∧ getIntersections B = []
  ∧ areaScore B = Some (mkScore 0 0)
  ∧ ∀ stns, createBoard (Some 0) stns = Ok (mkBoard 0 (default ∅ stns)).
Proof.
  intros Hsize. split; [|split; [|split]].
  - intros color coords. unfold play. rewrite Hsize.
    assert (inBounds 0 (mkPoint coords.1 coords.2) = false) as ->; [|done].
    apply not_true_is_false. rewrite inBounds_spec. cbn [i j]. lia.
  - unfold getIntersections. by rewrite Hsize.
  - unfold areaScore. by rewrite Hsize.
  - by intros [s|].
Qed.

Lemma zero_size_board_witness :
  play (mkBoard 0 (board_stones crossBoard)) BLACK (0, 0) = Throw OutOfBounds
  ∧ areaScore (mkBoard 0 (board_stones crossBoard)) = Some (mkScore 0 0).
Proof.
  destruct (zero_size_board (mkBoard 0 (board_stones crossBoard)))
    as (Hplay & _ & Hscore & _); [reflexivity|].
  split; [apply Hplay|exact Hscore].
Defined.

Lemma removedBy_inBounds color stns size p q :
  inBounds size p = true → removedBy color stns size p q →
  inBounds size q = true.
Proof.
  intros Hp [(g & (n & Hn & _ & Hg & _) & Hq)|(_ & own & Hown & _ & Hq)].
  - apply (getGroup_inBounds stns size n g); [|done..].
    by apply elem_of_getAdjacentIntersections in Hn as [? _].
  - by apply (getGroup_inBounds stns size p own).
Qed.

(** X16. [play] keeps the keys of the stones mapping on the board: if every
    key of the board is an intersection of the board, so is every key of
    the board that a successful [play] returns, for a stone of any colour. *)
Theorem play_keeps_keys_on_board (B B' : Board) (color : Color)
    (coords : Z * Z) :
  keysOnBoard B → play B color coords = Ok B' → keysOnBoard B'.
Proof.
  intros Hkeys Hplay k [c Hk].
  destruct (play_Ok_inv B color coords B' Hplay) as [Hb _].
  destruct (play_reads B color coords B' Hplay) as [Hsize Hread].
  rewrite Hsize.
  set (p := mkPoint coords.1 coords.2) in *.
  destruct (removedBy_dec color (replaceStone (board_stones B) p color)
              (board_size B) p k) as [Hr|Hr].
  - by eapply removedBy_inBounds.
  - rewrite (proj2 (Hread k) Hr) in Hk. unfold replaceStone in Hk.
    destruct (decide (p = k)) as [<-|Hne]; [done|].
    rewrite lookup_insert_ne in Hk by done. apply Hkeys. by exists c.
Qed.

Lemma play_keeps_keys_on_board_witness : keysOnBoard cornerResult.
Proof.
  apply (play_keeps_keys_on_board cornerBoard cornerResult BLACK (1, 0)).
  - intros k [c Hk]. cbn [board_stones board_size cornerBoard] in *.
    revert Hk. rewrite !lookup_insert, lookup_empty.
    repeat case_decide; subst; done.
  - vm_compute. reflexivity.
Defined.

(** ** Boards that read alike *)

Section same_on_board.
Variable size : Z.
Variables s1 s2 : gmap Point Color.
Hypothesis Hsame : sameOnBoard size s1 s2.

Lemma visitNeighbor_ext color ns acc :
  Forall (λ n, inBounds size n = true) ns →
  fold_left (visitNeighbor s1 color) ns acc
  = fold_left (visitNeighbor s2 color) ns acc.
Proof.
  intros Hns. revert acc.
  induction Hns as [|n ns Hn _ IH]; intros acc; [done|].
  cbn [fold_left]. rewrite IH. f_equal.
  unfold visitNeighbor. by rewrite (Hsame n Hn).
Qed.

Lemma search_ext color fuel visited queue surr :
  search s1 size color fuel visited queue surr
  = search s2 size color fuel visited queue surr.
Proof.
  revert visited queue surr.
  induction fuel as [|fuel IH]; intros visited queue surr; [done|].
  cbn [search]. destruct queue as [|stone queue]; [done|].
  destruct (decide (stone ∈ visited)) as [Hin|Hnin]; [apply IH|].
  rewrite visitNeighbor_ext; [apply IH|].
  apply Forall_forall. intros n Hn.
  by apply elem_of_getAdjacentIntersections in Hn as [? _].
Qed.

Lemma getGroup_ext seed :
  inBounds size seed = true → getGroup s1 size seed = getGroup s2 size seed.
Proof.
  intros Hb. unfold getGroup. by rewrite (Hsame seed Hb), search_ext.
Qed.

Lemma forEachPosition_ext positions acc :
  Forall (λ p, inBounds size p = true) positions →
  forEachPosition s1 size positions acc = forEachPosition s2 size positions acc.
Proof.
  intros Hpos. revert acc.
  induction Hpos as [|coords positions Hb _ IH]; intros acc; [done|].
  cbn [forEachPosition].
  assert (scoreStep s1 size acc coords = scoreStep s2 size acc coords) as ->.
  { unfold scoreStep. destruct acc as [visited score].
    by rewrite (Hsame coords Hb), (getGroup_ext coords Hb). }
  destruct (scoreStep s2 size acc coords); [apply IH|done].
Qed.

Lemma opponentNeighbors_ext color coords :
  opponentNeighbors color s1 size coords = opponentNeighbors color s2 size coords.
Proof.
  unfold opponentNeighbors.
  assert (Forall (λ n, inBounds size n = true)
                 (getAdjacentIntersections size coords)) as Hns.
  { apply Forall_forall. intros n Hn.
    by apply elem_of_getAdjacentIntersections in Hn as [? _]. }
  induction Hns as [|n ns Hn _ IH]; [done|].
  rewrite !filter_cons, IH, (Hsame n Hn). done.
Qed.

Lemma mapM_getGroup_ext ns :
  Forall (λ n, inBounds size n = true) ns →
  mapM (λ kv : Point * Color, getGroup s1 size kv.1)
       (map (λ n, (n, getStone s1 n)) ns)
  = mapM (λ kv : Point * Color, getGroup s2 size kv.1)
         (map (λ n, (n, getStone s2 n)) ns).
Proof.
  induction 1 as [|n ns Hn _ IH]; [done|].
  cbn [map mapM fst]. by rewrite (getGroup_ext n Hn), IH.
Qed.

Lemma capturedGroups_ext color coords :
  capturedGroups color s1 size coords = capturedGroups color s2 size coords.
Proof.
  unfold capturedGroups. rewrite !neighborColors_filter.
  rewrite opponentNeighbors_ext, mapM_getGroup_ext; [done|].
  apply Forall_forall. intros n Hn. unfold opponentNeighbors in Hn.
  apply list_elem_of_filter in Hn as [_ Hn].
  by apply elem_of_getAdjacentIntersections in Hn as [? _].
Qed.
End same_on_board.

Lemma sameOnBoard_replaceStone size s1 s2 p c :
  sameOnBoard size s1 s2 →
  sameOnBoard size (replaceStone s1 p c) (replaceStone s2 p c).
Proof.
  intros Hsame q Hq. destruct (decide (p = q)) as [->|Hne].
  - by rewrite !getStone_replaceStone_eq.
  - rewrite !getStone_replaceStone_ne by done. by apply Hsame.
Qed.

Lemma sameOnBoard_removeStones size s1 s2 captured :
  sameOnBoard size s1 s2 →
  sameOnBoard size (removeStones captured s1) (removeStones captured s2).
Proof.
  intros Hsame q Hq. unfold getStone, removeStones.
  rewrite !removeKeys_lookup. case_decide; [done|]. by apply Hsame.
Qed.

(** X17. [getGroup], [areaScore] and the grid read the stones mapping
    through [getStone] at intersections of the board only: on two boards of
    one size whose intersections read alike (though one may bind to EMPTY a
    key that the other lacks, or have keys off the board) they return the
    same groups, the same scores and the same grid. *)
Theorem accessors_read_through_getStone (B1 B2 : Board) :
  board_size B1 = board_size B2 →
  sameOnBoard (board_size B1) (board_stones B1) (board_stones B2) →
  (∀ seed, inBounds (board_size B1) seed = true →
           getGroup (board_stones B1) (board_size B1) seed
           = getGroup (board_stones B2) (board_size B2) seed)
  ∧ areaScore B1 = areaScore B2
  ∧ getIntersections B1 = getIntersections B2.
Proof.
  intros Hsize Hsame. split; [|split].
  - intros seed Hb. rewrite <- Hsize. by apply getGroup_ext.
  - unfold areaScore. rewrite <- Hsize.
    rewrite (forEachPosition_ext _ _ _ Hsame); [done|].
    apply Forall_forall. intros p. apply elem_of_allPositions.
  - unfold getIntersections. rewrite <- Hsize.
    apply list_fmap_ext. intros _ a Ha%list_elem_of_lookup_2.
    apply list_fmap_ext. intros _ b Hb%list_elem_of_lookup_2.
    apply Hsame. apply inBounds_spec. cbn [i j].
    by apply elem_of_Range0 in Ha, Hb.
Qed.

Lemma accessors_read_through_getStone_witness :
  areaScore cornerResult
  = areaScore (mkBoard 3 (<[mkPoint 1 0 := BLACK]> (<[mkPoint 0 1 := BLACK]> ∅))).
Proof.
  apply (accessors_read_through_getStone cornerResult
           (mkBoard 3 (<[mkPoint 1 0 := BLACK]> (<[mkPoint 0 1 := BLACK]> ∅)))).
  - reflexivity.
  - intros q _. unfold getStone. cbn [board_stones cornerResult].
    rewrite !lookup_insert, lookup_empty.
    repeat case_decide; subst; done.
Defined.

(** X18. [play] cannot tell apart two boards of one size whose
    intersections read alike: it raises the same error on both or returns
    two boards that again read alike, so an EMPTY intersection behaves the
    same whether its key is absent or bound to EMPTY. *)
Theorem play_reads_through_getStone (B1 B2 : Board) (color : Color)
    (coords : Z * Z) :
  board_size B1 = board_size B2 →
  sameOnBoard (board_size B1) (board_stones B1) (board_stones B2) →
  (∀ e, play B1 color coords = Throw e ↔ play B2 color coords = Throw e)
  ∧ (∀ B1', play B1 color coords = Ok B1' →
            ∃ B2', play B2 color coords = Ok B2'
                   ∧ board_size B1' = board_size B2'
                   ∧ sameOnBoard (board_size B1') (board_stones B1')
                                 (board_stones B2')).
Proof.
  intros Hsize Hsame.
  set (p := mkPoint coords.1 coords.2).
  destruct (play_outcome B1 color coords)
    as [[Hb H1]|[(Hb & Hs & H1)|(Hb & Hs & _)]]; fold p in Hb.
  - assert (play B2 color coords = Throw OutOfBounds) as H2.
    { unfold play. fold p. by rewrite <- Hsize, Hb. }
    rewrite H1, H2. split; [done|]. by intros.
  - assert (play B2 color coords = Throw IntersectionOccupied) as H2.
    { unfold play. fold p. rewrite <- Hsize, Hb. cbn [negb].
      fold p in Hs. rewrite decide_True; [done|]. by rewrite <- (Hsame p Hb). }
    rewrite H1, H2. split; [done|]. by intros.
  - fold p in Hs.
    assert (getStone (board_stones B2) p = EMPTY) as Hs2
      by (by rewrite <- (Hsame p Hb)).
    assert (inBounds (board_size B2) p = true) as Hb2 by (by rewrite <- Hsize).
    destruct (play_empty B1 color coords Hb Hs)
      as (captured & newGroup & Hc & Hn & ->).
    destruct (play_empty B2 color coords Hb2 Hs2)
      as (captured2 & newGroup2 & Hc2 & Hn2 & ->).
    fold p in Hc, Hn, Hc2, Hn2 |- *.
    pose proof (sameOnBoard_replaceStone _ _ _ p color Hsame) as HsameT.
    rewrite <- Hsize in Hc2, Hn2.
    rewrite (capturedGroups_ext _ _ _ HsameT) in Hc.
    rewrite (getGroup_ext _ _ _ HsameT p Hb) in Hn.
    assert (captured2 = captured) as -> by congruence.
    assert (newGroup2 = newGroup) as -> by congruence.
    split; [done|]. intros B1' [= <-]. eexists. split; [done|].
    cbn [board_size board_stones]. split; [done|].
    by apply sameOnBoard_removeStones.
Qed.

Lemma play_reads_through_getStone_witness :
  ∃ B2', play (mkBoard 3 (<[mkPoint 1 0 := BLACK]> (<[mkPoint 0 1 := BLACK]> ∅)))
              WHITE (0, 0) = Ok B2'
         ∧ sameOnBoard 3 (<[mkPoint 0 0 := EMPTY]>
                          (<[mkPoint 0 0 := WHITE]> (board_stones cornerResult)))
                       (board_stones B2').
Proof.
  destruct (play_reads_through_getStone cornerResult
              (mkBoard 3 (<[mkPoint 1 0 := BLACK]> (<[mkPoint 0 1 := BLACK]> ∅)))
              WHITE (0, 0)) as [_ Hok].
  - reflexivity.
  - intros q _. unfold getStone. cbn [board_stones cornerResult].
    rewrite !lookup_insert, lookup_empty.
    repeat case_decide; subst; done.
  - destruct (Hok (mkBoard 3 (<[mkPoint 0 0 := EMPTY]>
                     (<[mkPoint 0 0 := WHITE]> (board_stones cornerResult)))))
      as (B2' & Hplay & _ & Hsame).
    + vm_compute. reflexivity.
    + exists B2'. split; [exact Hplay|exact Hsame].
Defined.

(** ** The end of the search *)

(** X19. Group search always ends: for every stones mapping, size and seed
    (on the board or off it) the recursion of [search] is over within
    5·size² + 7 calls and [getGroup] returns a group; a larger budget gives
    the same stones and the same surrounding. *)
Theorem search_ends_within_budget (stns : gmap Point Color) (size : Z)
    (coords : Point) :
  ∃ g, getGroup stns size coords = Some g
       ∧ ∀ fuel, (5 * (Z.to_nat size * Z.to_nat size) + 7 <= fuel)%nat →
                 search stns size (getStone stns coords) fuel ∅ [coords] ∅
                 = Some (stones g, surrounding g).
Proof.
  destruct (getGroup_terminates stns size coords) as [g Hg].
  exists g. split; [done|]. intros fuel Hfuel.
  unfold getGroup in Hg.
  destruct (search stns size (getStone stns coords) (searchFuel size)
              ∅ [coords] ∅) as [[visited surr]|] eqn:Hs; [|done].
  injection Hg as <-. cbn [stones surrounding].
  by apply (search_fuel_mono _ _ _ (searchFuel size)).
Qed.

(** ** Exchange of the colours *)

Lemma swapColor_involutive c : swapColor (swapColor c) = c.
Proof. by destruct c. Qed.

Lemma swapColor_eq c d : swapColor c = swapColor d ↔ c = d.
Proof. destruct c, d; split; (done || discriminate). Qed.

Lemma swapColor_EMPTY c : swapColor c = EMPTY ↔ c = EMPTY.
Proof. apply (swapColor_eq c EMPTY). Qed.

Lemma getStone_swap stns q :
  getStone (swapColor <$> stns) q = swapColor (getStone stns q).
Proof. unfold getStone. rewrite lookup_fmap. by destruct (stns !! q). Qed.

Lemma visitNeighbor_swap stns color ns queue surr :
  fold_left (visitNeighbor (swapColor <$> stns) (swapColor color)) ns
            (queue, swapColor <$> surr)
  = ((fold_left (visitNeighbor stns color) ns (queue, surr)).1,
     swapColor <$> (fold_left (visitNeighbor stns color) ns (queue, surr)).2).
Proof.
  revert queue surr. induction ns as [|n ns IH]; intros queue surr; [done|].
  cbn [fold_left].
  destruct (decide (getStone stns n = color)) as [Hc|Hc].
  - rewrite (visitNeighbor_same stns color) by done.
    rewrite visitNeighbor_same by (by rewrite getStone_swap, Hc).
    apply IH.
  - rewrite (visitNeighbor_other stns color) by done.
    rewrite visitNeighbor_other by (by rewrite getStone_swap, swapColor_eq).
    rewrite getStone_swap, <- fmap_insert. apply IH.
Qed.

Lemma search_swap stns size color fuel visited queue surr :
  search (swapColor <$> stns) size (swapColor color) fuel visited queue
         (swapColor <$> surr)
  = (λ r : gset Point * gmap Point Color, (r.1, swapColor <$> r.2))
      <$> search stns size color fuel visited queue surr.
Proof.
  revert visited queue surr.
  induction fuel as [|fuel IH]; intros visited queue surr; [done|].
  cbn [search]. destruct queue as [|stone queue]; [done|].
  destruct (decide (stone ∈ visited)) as [Hin|Hnin]; [apply IH|].
  rewrite visitNeighbor_swap. cbn [fst snd]. apply IH.
Qed.

Lemma liberties_swap (surr : gmap Point Color) :
  base.size (filter (λ kv : Point * Color, kv.2 = EMPTY) (swapColor <$> surr))
  = base.size (filter (λ kv : Point * Color, kv.2 = EMPTY) surr).
Proof.
  rewrite map_filter_fmap, map_size_fmap. f_equal.
  apply map_filter_ext. intros n c _. cbn. apply swapColor_EMPTY.
Qed.

Lemma getGroup_swap stns size seed :
  getGroup (swapColor <$> stns) size seed
  = swapGroup <$> getGroup stns size seed.
Proof.
  unfold getGroup. rewrite getStone_swap.
  pose proof (search_swap stns size (getStone stns seed) (searchFuel size)
                ∅ [seed] ∅) as Hsw.
  rewrite fmap_empty in Hsw. rewrite Hsw. clear Hsw.
  destruct (search stns size (getStone stns seed) (searchFuel size) ∅ [seed] ∅)
    as [[visited surr]|]; [|done].
  cbn. unfold swapGroup. cbn. by rewrite liberties_swap.
Qed.

Lemma surroundingColors_swap g c :
  c ∈ surroundingColors (swapGroup g) ↔ swapColor c ∈ surroundingColors g.
Proof.
  unfold surroundingColors, swapGroup. cbn [surrounding].
  rewrite !elem_of_list_to_set, !list_elem_of_fmap. split.
  - intros ([n c'] & -> & Hin). apply elem_of_map_to_list in Hin.
    rewrite lookup_fmap in Hin.
    destruct (surrounding g !! n) as [d|] eqn:Hd; [|done].
    injection Hin as <-. exists (n, d). cbn.
    split; [by rewrite swapColor_involutive|by apply elem_of_map_to_list].
  - intros ([n d] & Hc & Hin). apply elem_of_map_to_list in Hin. cbn in Hc.
    exists (n, c). split; [done|]. apply elem_of_map_to_list.
    rewrite lookup_fmap, Hin. cbn. by rewrite <- Hc, swapColor_involutive.
Qed.

Lemma surroundingColors_swap_singleton g c :
  surroundingColors (swapGroup g) = {[c]}
  ↔ surroundingColors g = {[swapColor c]}.
Proof.
  split; intros H; apply set_eq; intros x; rewrite elem_of_singleton.
  - split.
    + intros Hx.
      assert (swapColor x ∈ surroundingColors (swapGroup g)) as Hx'.
      { apply surroundingColors_swap. by rewrite swapColor_involutive. }
      rewrite H in Hx'. apply elem_of_singleton in Hx' as <-.
      by rewrite swapColor_involutive.
    + intros ->.
      assert (c ∈ surroundingColors (swapGroup g)) as Hc
        by (rewrite H; by apply elem_of_singleton).
      by apply surroundingColors_swap in Hc.
  - rewrite surroundingColors_swap, H, elem_of_singleton.
    apply swapColor_eq.
Qed.

Lemma owner_swap stns size p :
  owner (swapColor <$> stns) size p = swapColor <$> owner stns size p.
Proof.
  unfold owner. rewrite getStone_swap, getGroup_swap.
  destruct (getStone stns p); [|done..]. cbn [swapColor].
  destruct (getGroup stns size p) as [g|]; [|done]. cbn [fmap option_fmap option_map].
  destruct (elements (surroundingColors g)) as [|c [|c' l]] eqn:He.
  - destruct (elements (surroundingColors (swapGroup g)))
      as [|d [|d' l']] eqn:He'; [done| |done].
    apply elements_one_color, surroundingColors_swap_singleton,
      elements_one_color in He'. congruence.
  - apply elements_one_color in He.
    rewrite <- (swapColor_involutive c) in He.
    apply surroundingColors_swap_singleton, elements_one_color in He.
    by rewrite He.
  - destruct (elements (surroundingColors (swapGroup g)))
      as [|d [|d' l']] eqn:He'; [done| |done].
    apply elements_one_color, surroundingColors_swap_singleton,
      elements_one_color in He'. congruence.
Qed.

(** X20. The score is symmetric in the colours: on the board with BLACK and
    WHITE exchanged, [areaScore] returns the two scores exchanged. *)
Theorem areaScore_colour_symmetric (B : Board) :
  areaScore (swapBoard B) = swapScore <$> areaScore B.
Proof.
  destruct (areaScore_owned B BLACK) as (s & Hs & HB); [by left|].
  destruct (areaScore_owned B WHITE) as (s1 & Hs1 & HW); [by right|].
  destruct (areaScore_owned (swapBoard B) BLACK) as (t & Ht & HtB); [by left|].
  destruct (areaScore_owned (swapBoard B) WHITE) as (t1 & Ht1 & HtW);
    [by right|].
  assert (s1 = s) as -> by congruence.
  assert (t1 = t) as -> by congruence.
  rewrite Ht, Hs. cbn. f_equal.
  assert (∀ c, ownedPoints (swapBoard B) c = ownedPoints B (swapColor c))
    as Hown.
  { intros c. unfold ownedPoints, swapBoard. cbn [board_size board_stones].
    apply set_eq. intros p. rewrite !elem_of_filter, owner_swap.
    destruct (owner (board_stones B) (board_size B) p) as [d|]; cbn;
      [|naive_solver].
    split; intros [Hd ?]; (split; [|done]); f_equal; injection Hd as Hd.
    - by rewrite <- Hd, swapColor_involutive.
    - by rewrite Hd, swapColor_involutive. }
  cbn [scoreOf] in HB, HW, HtB, HtW.
  rewrite Hown in HtB, HtW. cbn [swapColor] in HtB, HtW.
  destruct t as [tb tw], s as [sb sw]. unfold swapScore. cbn in *. congruence.
Qed.

Lemma opponentColor_swap color c :
  opponentColor (swapColor color) (swapColor c) = opponentColor color c.
Proof. by destruct color, c. Qed.

Lemma opponentNeighbors_swap color stns size coords :
  opponentNeighbors (swapColor color) (swapColor <$> stns) size coords
  = opponentNeighbors color stns size coords.
Proof.
  unfold opponentNeighbors.
  induction (getAdjacentIntersections size coords) as [|n ns IH]; [done|].
  rewrite !filter_cons, IH, getStone_swap, opponentColor_swap. done.
Qed.

Lemma mapM_getGroup_swap stns size ns :
  mapM (λ kv : Point * Color, getGroup (swapColor <$> stns) size kv.1)
       (map (λ n, (n, getStone (swapColor <$> stns) n)) ns)
  = map swapGroup
      <$> mapM (λ kv : Point * Color, getGroup stns size kv.1)
               (map (λ n, (n, getStone stns n)) ns).
Proof.
  induction ns as [|n ns IH]; [done|].
  cbn [map mapM fst]. rewrite getGroup_swap, IH.
  destruct (getGroup stns size n) as [g|]; [|done]. cbn.
  by destruct (mapM (λ kv : Point * Color, getGroup stns size kv.1)
                    (map (λ n0, (n0, getStone stns n0)) ns)).
Qed.

Lemma capturedGroups_swap color stns size coords :
  capturedGroups (swapColor color) (swapColor <$> stns) size coords
  = map swapGroup <$> capturedGroups color stns size coords.
Proof.
  unfold capturedGroups.
  rewrite !neighborColors_filter, opponentNeighbors_swap, mapM_getGroup_swap.
  destruct (mapM _ _) as [groups|]; [|done]. cbn. f_equal.
  induction groups as [|g groups IH]; [done|].
  cbn [map]. rewrite !filter_cons, IH. unfold isDead, swapGroup at 1. cbn.
  by destruct (decide _).
Qed.

Lemma removeStones_swap captured stns :
  removeStones (map swapGroup captured) (swapColor <$> stns)
  = swapColor <$> removeStones captured stns.
Proof.
  unfold removeStones.
  assert (flat_map (λ g, elements (stones g)) (map swapGroup captured)
          = flat_map (λ g, elements (stones g)) captured) as ->.
  { induction captured as [|g l IH]; [done|]. cbn. by rewrite IH. }
  generalize (flat_map (λ g, elements (stones g)) captured). intros keys.
  revert stns. induction keys as [|k keys IH]; intros stns; [done|].
  cbn [fold_left].
  assert (replaceStone (swapColor <$> stns) k EMPTY
          = swapColor <$> replaceStone stns k EMPTY) as ->.
  { unfold replaceStone. by rewrite fmap_insert. }
  apply IH.
Qed.

Lemma finalCaptured_swap captured newGroup :
  finalCaptured (map swapGroup captured) (swapGroup newGroup)
  = map swapGroup (finalCaptured captured newGroup).
Proof.
  unfold finalCaptured.
  assert (isDead (swapGroup newGroup) = isDead newGroup) as -> by done.
  destruct captured as [|g l]; cbn [map].
  - rewrite !bool_decide_eq_true_2 by done. by destruct (isDead newGroup).
  - by rewrite !bool_decide_eq_false_2.
Qed.

(** X21. The rules are symmetric in the colours: a move of the other colour
    on the board with BLACK and WHITE exchanged raises the same error or
    returns the same board with the colours exchanged. *)
Theorem play_colour_symmetric (B : Board) (color : Color) (coords : Z * Z) :
  play (swapBoard B) (swapColor color) coords
  = swapResult (play B color coords).
Proof.
  unfold play, swapBoard. cbn [board_size board_stones].
  destruct (inBounds (board_size B) (mkPoint coords.1 coords.2)); [|done].
  cbn [negb]. rewrite getStone_swap.
  destruct (decide (getStone (board_stones B) (mkPoint coords.1 coords.2)
                    ≠ EMPTY)) as [He|He].
  - rewrite decide_True; [done|]. by rewrite swapColor_EMPTY.
  - rewrite decide_False by (by rewrite swapColor_EMPTY).
    assert (replaceStone (swapColor <$> board_stones B)
              (mkPoint coords.1 coords.2) (swapColor color)
            = swapColor <$> replaceStone (board_stones B)
                              (mkPoint coords.1 coords.2) color) as ->.
    { unfold replaceStone. by rewrite fmap_insert. }
    rewrite capturedGroups_swap, getGroup_swap.
    destruct (capturedGroups _ _ _ _) as [captured|]; [|done].
    destruct (getGroup _ _ _) as [newGroup|]; [|done].
    cbn [fmap option_fmap option_map].
    rewrite finalCaptured_swap, removeStones_swap.
    unfold createBoard. by destruct (board_size B <? 0).
Qed.

(** * The claims on capture, suicide and score, in terms of the board *)

(** ** From what the code computes to the position *)

Lemma connected_groupOf stns size seed x :
  connected stns size seed x ↔ groupOf stns size seed x.
Proof.
  unfold connected, groupOf, link. split; apply rtc_subrel; intros a b.
  - rewrite elem_of_getAdjacentIntersections. tauto.
  - rewrite elem_of_getAdjacentIntersections. tauto.
Qed.

Lemma getGroup_groupOf stns size seed g x :
  getGroup stns size seed = Some g → x ∈ stones g ↔ groupOf stns size seed x.
Proof.
  intros Hg. apply getGroup_spec in Hg.
  by rewrite (gs_stones _ _ _ _ Hg), connected_groupOf.
Qed.

Lemma hasLiberty_noLiberty stns size seed :
  noLiberty stns size seed ↔ ¬ hasLiberty stns size seed.
Proof.
  unfold noLiberty, hasLiberty. split.
  - intros Hno (x & n & Hx & Hadj & He).
    apply elem_of_getAdjacentIntersections in Hadj as [Hb Ho].
    by apply (Hno x n); [apply connected_groupOf|..].
  - intros Hno x m Hx Hb Ho He. apply Hno. exists x, m.
    split; [by apply connected_groupOf|].
    split; [by apply elem_of_getAdjacentIntersections|done].
Qed.

Lemma liberties_noLiberty stns size seed g :
  getGroup stns size seed = Some g → getStone stns seed ≠ EMPTY →
  liberties g = 0%nat ↔ noLiberty stns size seed.
Proof.
  intros Hg Hne. rewrite hasLiberty_noLiberty.
  rewrite <- (liberties_hasLiberty _ _ _ _ Hg Hne).
  destruct (decide (liberties g = 0%nat)); tauto.
Qed.

Lemma surrounding_bordersColor stns size seed g c :
  getGroup stns size seed = Some g →
  (∃ n, surrounding g !! n = Some c) ↔ bordersColor stns size seed c.
Proof.
  intros Hg. pose proof (getGroup_spec _ _ _ _ Hg) as [Hs Hsu _].
  unfold bordersColor. split.
  - intros (n & Hn). apply Hsu in Hn as ((x & Hx & Hadj) & Hne & ->).
    apply elem_of_getAdjacentIntersections in Hadj as [Hb Ho].
    exists x, n. split; [by apply (getGroup_groupOf _ _ _ _ _ Hg)|done].
  - intros (x & m & Hx & Hb & Ho & <- & Hne). exists m. apply Hsu.
    split; [|done]. exists x.
    split; [by apply (getGroup_groupOf _ _ _ _ _ Hg)|].
    by apply elem_of_getAdjacentIntersections.
Qed.

Lemma surroundingColors_bordersColor stns size seed g c :
  getGroup stns size seed = Some g →
  c ∈ surroundingColors g ↔ bordersColor stns size seed c.
Proof.
  intros Hg. rewrite <- (surrounding_bordersColor _ _ _ _ _ Hg).
  unfold surroundingColors. rewrite elem_of_list_to_set, list_elem_of_fmap.
  split.
  - intros ([n c'] & -> & Hin). exists n. by apply elem_of_map_to_list.
  - intros (n & Hn). exists (n, c). split; [done|].
    by apply elem_of_map_to_list.
Qed.

Lemma surroundingColors_soleBorder stns size seed g c :
  getGroup stns size seed = Some g →
  surroundingColors g = {[c]} ↔ soleBorder stns size seed c.
Proof.
  intros Hg. unfold soleBorder. split.
  - intros H. split.
    + apply (surroundingColors_bordersColor _ _ _ _ _ Hg). rewrite H.
      by apply elem_of_singleton.
    + intros c' Hc'. apply (surroundingColors_bordersColor _ _ _ _ _ Hg) in Hc'.
      rewrite H in Hc'. by apply elem_of_singleton in Hc'.
  - intros [Hc Honly]. apply set_eq. intros c'. rewrite elem_of_singleton.
    rewrite (surroundingColors_bordersColor _ _ _ _ _ Hg). split.
    + apply Honly.
    + by intros ->.
Qed.

Lemma surroundingColors_one_soleBorder stns size seed g :
  getGroup stns size seed = Some g →
  base.size (surroundingColors g) = 1%nat ↔ ∃ c, soleBorder stns size seed c.
Proof.
  intros Hg. split.
  - intros [c Hc]%size_1_elem_of. apply leibniz_equiv in Hc. exists c.
    by apply (surroundingColors_soleBorder _ _ _ g).
  - intros [c Hc]. apply (surroundingColors_soleBorder _ _ _ g) in Hc; [|done].
    by rewrite Hc, size_singleton.
Qed.

Lemma capturedPoint_deadNeighborGroup color stns size p q :
  capturedPoint color stns size p q
  ↔ ∃ g, deadNeighborGroup color stns size p g ∧ q ∈ stones g.
Proof.
  unfold capturedPoint, deadNeighborGroup. split.
  - intros (n & Hb & Ho & Hc1 & Hc2 & Hq & Hno).
    destruct (getGroup_terminates stns size n) as [g Hg].
    exists g. split; [|by apply (getGroup_groupOf _ _ _ _ _ Hg)].
    exists n. split; [by apply elem_of_getAdjacentIntersections|].
    split; [by apply opponentColor_spec|]. split; [done|].
    by apply (liberties_noLiberty _ _ _ _ Hg).
  - intros (g & (n & Hadj & Hopp & Hg & Hl) & Hq).
    apply elem_of_getAdjacentIntersections in Hadj as [Hb Ho].
    apply opponentColor_spec in Hopp as [Hc1 Hc2].
    exists n. split; [done|]. split; [done|]. split; [done|]. split; [done|].
    split; [by apply (getGroup_groupOf _ _ _ _ _ Hg)|].
    by apply (liberties_noLiberty _ _ _ _ Hg).
Qed.

(** The two empty regions of [wallBoard]. *)
Lemma wallBoard_top_black p :
  p = mkPoint 0 0 ∨ p = mkPoint 0 1 ∨ p = mkPoint 0 2 →
  soleBorder (board_stones wallBoard) 3 p BLACK.
Proof.
  intros Hp.
  destruct (getGroup_terminates (board_stones wallBoard) 3 p) as [g Hg].
  apply (surroundingColors_soleBorder _ _ _ g _ Hg).
  destruct Hp as [-> | [-> | ->]];
    vm_compute in Hg; injection Hg as <-; vm_compute; reflexivity.
Qed.

Lemma wallBoard_low_contested c :
  ¬ soleBorder (board_stones wallBoard) 3 (mkPoint 2 0) c.
Proof.
  intros [_ Honly].
  assert (bordersColor (board_stones wallBoard) 3 (mkPoint 2 0) BLACK) as HB.
  { exists (mkPoint 2 0), (mkPoint 1 0). split; [apply rtc_refl|].
    split; [vm_compute; reflexivity|].
    split; [unfold orthogonal; cbn; lia|].
    split; [vm_compute; reflexivity|vm_compute; intros [=]]. }
  assert (bordersColor (board_stones wallBoard) 3 (mkPoint 2 0) WHITE) as HW.
  { exists (mkPoint 2 1), (mkPoint 2 2). split.
    - apply rtc_once. split; [vm_compute; reflexivity|].
      split; [unfold orthogonal; cbn; lia|vm_compute; reflexivity].
    - split; [vm_compute; reflexivity|].
      split; [unfold orthogonal; cbn; lia|].
      split; [vm_compute; reflexivity|vm_compute; intros [=]]. }
  apply Honly in HB, HW. congruence.
Qed.

(** ** Capture *)

(** C1. Capture: when the stone of BLACK or WHITE played at an empty
    intersection [p] of the board leaves without liberty a group of the
    opponent that holds a point next to [p], [play] returns a board on which
    the stones of exactly these groups are EMPTY, the stone played at [p]
    stands, and every other intersection reads as before. The groups and
    their liberties are those of the board with the played stone, read
    through orthogonal adjacency alone. *)
Theorem play_captures_dead_groups (B : Board) (color : Color) (coords : Z * Z) :
  let p := mkPoint coords.1 coords.2 in
  let placed := <[p := color]> (board_stones B) in
  let size := board_size B in
  color = BLACK ∨ color = WHITE →
  inBounds size p = true →
  getStone (board_stones B) p = EMPTY →
  (∃ q, capturedPoint color placed size p q) →
  ∃ B', play B color coords = Ok B'
        ∧ board_size B' = size
        ∧ (∀ q, capturedPoint color placed size p q →
                getStone (board_stones B) q ≠ EMPTY
                ∧ getStone (board_stones B) q ≠ color
                ∧ getStone (board_stones B') q = EMPTY)
        ∧ getStone (board_stones B') p = color
        ∧ (∀ q, q ≠ p → ¬ capturedPoint color placed size p q →
                getStone (board_stones B') q = getStone (board_stones B) q).
Proof.
  intros p placed size Hcolor Hb He [q0 Hq0].
  destruct (play_captures_neighbor_groups B color coords Hcolor Hb He)
    as (B' & Hplay & Hsize & Hdead & Hp & Hother).
  { apply capturedPoint_deadNeighborGroup in Hq0 as (g & Hg & _).
    by exists g. }
  exists B'. split; [done|]. split; [done|]. split; [|split; [done|]].
  - intros q Hq.
    pose proof Hq as (n & _ & _ & Hc1 & _ & Hgq & _).
    apply connected_groupOf, connected_color in Hgq.
    apply capturedPoint_deadNeighborGroup in Hq.
    destruct (Hdead q Hq) as [Hstone Hempty].
    split; [done|]. split; [|done].
    assert (q ≠ p) as Hqp.
    { intros ->. unfold placed, getStone in Hgq, Hc1.
      rewrite lookup_insert_eq in Hgq. cbn in Hgq. congruence. }
    unfold placed, getStone in Hgq, Hc1.
    rewrite lookup_insert_ne in Hgq by done. unfold getStone. congruence.
  - intros q Hqp Hq. apply Hother; [done|].
    intros Hd. by apply Hq, capturedPoint_deadNeighborGroup.
Qed.

Lemma play_captures_dead_groups_witness :
  ∃ B', play bentBoard BLACK (1, 1) = Ok B'
        ∧ getStone (board_stones B') (mkPoint 0 0) = EMPTY
        ∧ getStone (board_stones B') (mkPoint 0 1) = EMPTY
        ∧ getStone (board_stones B') (mkPoint 1 0) = EMPTY
        ∧ getStone (board_stones B') (mkPoint 1 1) = BLACK
        ∧ getStone (board_stones B') (mkPoint 0 2) = BLACK
        ∧ getStone (board_stones B') (mkPoint 2 2) = EMPTY.
Proof.
  assert (deadNeighborGroup BLACK bentTentative 3 (mkPoint 1 1) bentGroup)
    as Hdead.
  { exists (mkPoint 0 1). split; [|split; [|split]].
    - apply list_elem_of_In. vm_compute. tauto.
    - vm_compute. reflexivity.
    - vm_compute. reflexivity.
    - reflexivity. }
  assert (∀ q, q ∈ stones bentGroup →
               capturedPoint BLACK bentTentative 3 (mkPoint 1 1) q) as Hin.
  { intros q Hq. apply capturedPoint_deadNeighborGroup. by exists bentGroup. }
  assert (∀ q, getStone bentTentative q ≠ WHITE →
               ¬ capturedPoint BLACK bentTentative 3 (mkPoint 1 1) q) as Hout.
  { intros q Hq (n & Hb & Ho & Hc1 & Hc2 & Hgq & _). apply Hq.
    apply connected_groupOf, connected_color in Hgq. rewrite Hgq.
    by destruct (getStone bentTentative n). }
  destruct (play_captures_dead_groups bentBoard BLACK (1, 1))
    as (B' & Hplay & _ & Hcapt & Hp & Hother).
  - by left.
  - vm_compute. reflexivity.
  - vm_compute. reflexivity.
  - exists (mkPoint 0 0). apply Hin. cbn [stones bentGroup]. set_solver.
  - exists B'. split; [exact Hplay|].
    split; [apply Hcapt, Hin; cbn [stones bentGroup]; set_solver|].
    split; [apply Hcapt, Hin; cbn [stones bentGroup]; set_solver|].
    split; [apply Hcapt, Hin; cbn [stones bentGroup]; set_solver|].
    split; [exact Hp|]. split.
    + rewrite Hother; [vm_compute; reflexivity|intros [=]|].
      apply Hout. vm_compute. intros [=].
    + rewrite Hother; [vm_compute; reflexivity|intros [=]|].
      apply Hout. vm_compute. intros [=].
Defined.

(** ** Suicide *)

(** C2. Suicide: when the stone played at an empty intersection [p] of the
    board takes no group of the opponent and its own group has no liberty,
    [play] is not rejected; it returns a board on which the points of that
    group, [p] among them, are EMPTY and every other intersection reads as
    before. The groups and their liberties are those of the board with the
    played stone, read through orthogonal adjacency alone. On the 3×3 board
    with BLACK at (0,1), (1,0), (1,2) and (2,1), WHITE at (1,1) gives a
    board with (1,1) EMPTY and the four black stones in place. *)
Theorem play_suicide :
  (∀ (B : Board) (color : Color) (coords : Z * Z),
     let p := mkPoint coords.1 coords.2 in
     let placed := <[p := color]> (board_stones B) in
     let size := board_size B in
     inBounds size p = true →
     getStone (board_stones B) p = EMPTY →
     (∀ q, ¬ capturedPoint color placed size p q) →
     noLiberty placed size p →
     ∃ B', play B color coords = Ok B'
           ∧ board_size B' = size
           ∧ getStone (board_stones B') p = EMPTY
           ∧ (∀ q, groupOf placed size p q →
                   getStone (board_stones B') q = EMPTY)
           ∧ (∀ q, ¬ groupOf placed size p q →
                   getStone (board_stones B') q = getStone (board_stones B) q))
  ∧ (∃ B', play crossBoard WHITE (1, 1) = Ok B'
           ∧ Board_getStone B' (1, 1) = EMPTY
           ∧ Board_getStone B' (0, 1) = BLACK
           ∧ Board_getStone B' (1, 0) = BLACK
           ∧ Board_getStone B' (1, 2) = BLACK
           ∧ Board_getStone B' (2, 1) = BLACK).
Proof.
  split; [|exact (proj2 play_suicide_own_group)].
  intros B color coords p placed size Hb He Hnone Hno.
  destruct (getGroup_terminates placed size p) as [own Hown].
  assert (liberties own = 0%nat) as Hlib.
  { destruct (decide (color = EMPTY)) as [->|Hne].
    - destruct (getGroup_empty_seed placed size p Hb) as (g & Hg & Hl & _).
      + unfold placed, getStone. by rewrite lookup_insert_eq.
      + congruence.
    - apply (liberties_noLiberty _ _ _ _ Hown); [|done].
      unfold placed, getStone. by rewrite lookup_insert_eq. }
  destruct (proj1 play_suicide_own_group B color coords Hb He) with (own := own)
    as (B' & Hplay & Hsize & Hp & Hgone & Hother); [|done|done|].
  { intros g Hg. pose proof Hg as (n & _ & _ & Hgn & _).
    apply (Hnone n), capturedPoint_deadNeighborGroup. exists g.
    split; [done|]. by eapply getGroup_seed. }
  exists B'. split; [done|]. split; [done|]. split; [by apply Hgone|]. split.
  - intros q Hq. by apply Hgone, (getGroup_groupOf _ _ _ _ _ Hown).
  - intros q Hq. apply Hother. intros Hin.
    by apply Hq, (getGroup_groupOf _ _ _ _ _ Hown).
Qed.

Lemma play_suicide_witness :
  ∃ B', play pairBoard WHITE (0, 1) = Ok B'
        ∧ getStone (board_stones B') (mkPoint 0 1) = EMPTY
        ∧ getStone (board_stones B') (mkPoint 0 0) = EMPTY
        ∧ getStone (board_stones B') (mkPoint 1 0) = BLACK
        ∧ getStone (board_stones B') (mkPoint 0 2) = BLACK.
Proof.
  set (placed := <[mkPoint 0 1 := WHITE]> (board_stones pairBoard)).
  assert (∀ q, getStone placed q ≠ WHITE → ¬ groupOf placed 3 (mkPoint 0 1) q)
    as Hout.
  { intros q Hq Hg. apply Hq.
    apply connected_groupOf, connected_color in Hg. rewrite Hg.
    vm_compute. reflexivity. }
  destruct (proj1 play_suicide pairBoard WHITE (0, 1))
    as (B' & Hplay & _ & Hp & Hgone & Hother).
  - vm_compute. reflexivity.
  - vm_compute. reflexivity.
  - intros q Hq. apply capturedPoint_deadNeighborGroup in Hq as (g & Hg & _).
    apply (elem_of_capturedGroups _ _ _ _ [] g) in Hg.
    + by apply elem_of_nil in Hg.
    + vm_compute. reflexivity.
  - destruct (getGroup_terminates placed 3 (mkPoint 0 1)) as [g Hg].
    apply (liberties_noLiberty _ _ _ _ Hg).
    + vm_compute. intros [=].
    + vm_compute in Hg. injection Hg as <-. reflexivity.
  - exists B'. split; [exact Hplay|]. split; [exact Hp|]. split; [|split].
    + apply Hgone. apply rtc_once.
      split; [vm_compute; reflexivity|].
      split; [unfold orthogonal; cbn; lia|vm_compute; reflexivity].
    + rewrite Hother; [vm_compute; reflexivity|].
      apply Hout. vm_compute. intros [=].
    + rewrite Hother; [vm_compute; reflexivity|].
      apply Hout. vm_compute. intros [=].
Defined.

(** ** The score of the regions *)

(** C6. Scoring of regions: the score of each colour is the sum of what the
    regions that [areaScore] finds give to it. Each region is found from a
    point of the board and is the group of that point; the colours in its
    [surrounding] are the colours that border it. An empty region that
    exactly one colour borders gives its size to that colour (BLACK or
    WHITE) and nothing to the other; an empty region that no colour or
    several colours border gives nothing; a group found at a stone gives
    its number of stones to the colour of the stone. *)
Theorem areaScore_region_contributions (B : Board) :
  let stns := board_stones B in
  let size := board_size B in
  ∃ s, areaScore B = Some s
       ∧ score_BLACK s = sumZ (map (contribution stns BLACK) (regions B))
       ∧ score_WHITE s = sumZ (map (contribution stns WHITE) (regions B))
       ∧ ∀ seed g, (seed, g) ∈ regions B →
           inBounds size seed = true
           ∧ (∀ x, x ∈ stones g ↔ groupOf stns size seed x)
           ∧ (∀ c, (∃ n, surrounding g !! n = Some c)
                   ↔ bordersColor stns size seed c)
           ∧ (getStone stns seed = EMPTY →
              (∀ c, soleBorder stns size seed c →
                    (c = BLACK ∨ c = WHITE)
                    ∧ contribution stns c (seed, g)
                      = Z.of_nat (base.size (stones g))
                    ∧ ∀ c', c' ≠ c → contribution stns c' (seed, g) = 0)
              ∧ ((∀ c, ¬ soleBorder stns size seed c) →
                 ∀ c, contribution stns c (seed, g) = 0))
           ∧ (getStone stns seed ≠ EMPTY →
              contribution stns (getStone stns seed) (seed, g)
              = Z.of_nat (base.size (stones g))
              ∧ ∀ c', c' ≠ getStone stns seed →
                      contribution stns c' (seed, g) = 0).
Proof.
  intros stns size.
  destruct (areaScore_region_amounts B) as (s & Hs & HB & HW & Hregs).
  fold stns in HB, HW, Hregs.
  exists s. split; [done|]. split; [done|]. split; [done|].
  intros seed g Hr.
  destruct (regions_getGroup B _ Hr) as [Hb Hg]. cbn [fst snd] in Hb, Hg.
  fold stns size in Hb, Hg.
  destruct (Hregs seed g Hr) as (_ & Hempty & Hstone).
  split; [done|]. split; [intros x; by apply getGroup_groupOf|].
  split; [intros c; by apply surrounding_bordersColor|]. split; [|done].
  intros He. destruct (Hempty He) as [Hone Hnot]. split.
  - intros c Hc. apply Hone. by apply (surroundingColors_soleBorder stns size seed).
  - intros Hno c. apply Hnot.
    intros [c' Hc']%(surroundingColors_one_soleBorder stns size seed g Hg).
    by apply (Hno c').
Qed.

Lemma areaScore_region_contributions_witness :
  ∃ s top low,
    areaScore wallBoard = Some s
    ∧ score_BLACK s = 6 ∧ score_WHITE s = 1
    ∧ (mkPoint 0 0, top) ∈ regions wallBoard
    ∧ base.size (stones top) = 3%nat
    ∧ contribution (board_stones wallBoard) BLACK (mkPoint 0 0, top) = 3
    ∧ contribution (board_stones wallBoard) WHITE (mkPoint 0 0, top) = 0
    ∧ (mkPoint 2 0, low) ∈ regions wallBoard
    ∧ base.size (stones low) = 2%nat
    ∧ contribution (board_stones wallBoard) BLACK (mkPoint 2 0, low) = 0
    ∧ contribution (board_stones wallBoard) WHITE (mkPoint 2 0, low) = 0.
Proof.
  destruct (areaScore_region_contributions wallBoard)
    as (s & Hs & HB & HW & Hregs).
  destruct (getGroup_terminates (board_stones wallBoard) 3 (mkPoint 0 0))
    as [top Htop].
  destruct (getGroup_terminates (board_stones wallBoard) 3 (mkPoint 2 0))
    as [low Hlow].
  assert (base.size (stones top) = 3%nat) as Hst.
  { vm_compute in Htop. injection Htop as <-. vm_compute. reflexivity. }
  assert (base.size (stones low) = 2%nat) as Hsl.
  { vm_compute in Hlow. injection Hlow as <-. vm_compute. reflexivity. }
  assert ((mkPoint 0 0, top) ∈ regions wallBoard) as Hrt.
  { vm_compute in Htop. injection Htop as <-. apply list_elem_of_In.
    vm_compute. left. reflexivity. }
  assert ((mkPoint 2 0, low) ∈ regions wallBoard) as Hrl.
  { vm_compute in Hlow. injection Hlow as <-. apply list_elem_of_In.
    vm_compute. do 2 right. left. reflexivity. }
  destruct (Hregs _ _ Hrt) as (_ & _ & _ & Hempty & _).
  destruct Hempty as [Hone _]; [vm_compute; reflexivity|].
  destruct (Hone BLACK) as (_ & HcB & HcO);
    [apply wallBoard_top_black; by left|].
  destruct (Hregs _ _ Hrl) as (_ & _ & _ & Hempty' & _).
  destruct Hempty' as [_ Hnone]; [vm_compute; reflexivity|].
  specialize (Hnone wallBoard_low_contested).
  exists s, top, low. split; [exact Hs|].
  split; [rewrite HB; vm_compute; reflexivity|].
  split; [rewrite HW; vm_compute; reflexivity|].
  split; [exact Hrt|]. split; [exact Hst|].
  split; [rewrite HcB, Hst; reflexivity|].
  split; [apply HcO; discriminate|].
  split; [exact Hrl|]. split; [exact Hsl|].
  split; apply Hnone.
Defined.

(** ** Conservation of area *)

(** C7. Conservation of area: on a board of size at least zero the two
    scores add up to at most size², and to exactly size² exactly when every
    EMPTY intersection of the board lies in a region that exactly one
    colour borders (no empty region is neutral or contested). The regions
    that [areaScore] finds are pairwise disjoint and cover the board, and
    each gives its size to at most one colour: no intersection is counted
    twice. *)
Theorem areaScore_conserves_area (B : Board) :
  let stns := board_stones B in
  let size := board_size B in
  0 <= size →
  ∃ s, areaScore B = Some s
       ∧ score_BLACK s + score_WHITE s <= size * size
       ∧ (score_BLACK s + score_WHITE s = size * size
          ↔ ∀ p, inBounds size p = true → getStone stns p = EMPTY →
                 ∃ c, soleBorder stns size p c)
       ∧ (score_BLACK s + score_WHITE s = size * size
          ↔ ∀ p g, inBounds size p = true → getStone stns p = EMPTY →
                   getGroup stns size p = Some g →
                   base.size (surroundingColors g) = 1%nat)
       ∧ (score_BLACK s + score_WHITE s = size * size
          ↔ ∀ r, r ∈ regions B → ¬ neutral stns r)
       ∧ (∀ k1 k2 r1 r2, regions B !! k1 = Some r1 → regions B !! k2 = Some r2 →
                         k1 ≠ k2 → stones r1.2 ## stones r2.2)
       ∧ regionStones (regions B) = boardPoints size
       ∧ (∀ r, r ∈ regions B →
               0 <= contribution stns BLACK r
               ∧ 0 <= contribution stns WHITE r
               ∧ contribution stns BLACK r + contribution stns WHITE r
                 <= regionSize r).
Proof.
  intros stns size Hsize.
  destruct (areaScore_area_of_regions B Hsize)
    as (s & Hs & Hle & Heq & Hneutral & Hdisj & Hcover & Hcontrib).
  fold stns size in Heq, Hneutral, Hcover, Hcontrib, Hle.
  exists s. split; [done|]. split; [done|]. split; [|done].
  rewrite Heq. split.
  - intros Hall p Hb He.
    destruct (getGroup_terminates stns size p) as [g Hg].
    apply (surroundingColors_one_soleBorder stns size p g Hg).
    by apply (Hall p g).
  - intros Hall p g Hb He Hg.
    apply (surroundingColors_one_soleBorder stns size p g Hg).
    by apply Hall.
Qed.

Lemma areaScore_conserves_area_witness :
  (∃ s, areaScore crossBoard = Some s
        ∧ score_BLACK s + score_WHITE s = 3 * 3)
  ∧ (∃ s, areaScore wallBoard = Some s
          ∧ score_BLACK s + score_WHITE s < 3 * 3).
Proof.
  split.
  - destruct (areaScore_conserves_area crossBoard)
      as (s & Hs & _ & Heq & _).
    + vm_compute. intros [=].
    + exists s. split; [exact Hs|]. apply Heq. intros p Hb He.
      destruct (getGroup_terminates (board_stones crossBoard) 3 p) as [g Hg].
      apply (surroundingColors_one_soleBorder _ _ _ g Hg).
      apply elem_of_allPositions, list_elem_of_In in Hb. vm_compute in Hb.
      repeat (destruct Hb as [<-|Hb]); [..|destruct Hb].
      all: first [ vm_compute in He; discriminate He
                 | vm_compute in Hg; injection Hg as <-;
                   vm_compute; reflexivity ].
  - destruct (areaScore_conserves_area wallBoard)
      as (s & Hs & Hle & Heq & _).
    + vm_compute. intros [=].
    + exists s. split; [exact Hs|].
      assert (score_BLACK s + score_WHITE s ≠ 3 * 3) as Hne.
      { intros Hsum. pose proof (proj1 Heq Hsum) as Hall.
        destruct (Hall (mkPoint 2 0)) as [c Hc]; [vm_compute; reflexivity..|].
        by apply (wallBoard_low_contested c). }
      change (score_BLACK s + score_WHITE s <= 3 * 3) in Hle. lia.
Defined.

(** ** The empty regions *)

(** X10. Group search at an EMPTY intersection of the board returns a group
    all the same: the region of the EMPTY intersections of the board that
    are connected to the seed by orthogonal steps over EMPTY intersections.
    The region is connected, no EMPTY intersection of the board next to it
    is left out, its liberties are zero, and its [surrounding] holds stones
    only, of the colours that border the region. *)
Theorem getGroup_of_empty_region (stns : gmap Point Color) (size : Z)
    (seed : Point) :
  inBounds size seed = true →
  getStone stns seed = EMPTY →
  ∃ g, getGroup stns size seed = Some g
       ∧ liberties g = 0%nat
       ∧ seed ∈ stones g
       ∧ (∀ x, x ∈ stones g ↔ groupOf stns size seed x)
       ∧ (∀ x, x ∈ stones g →
               inBounds size x = true ∧ getStone stns x = EMPTY
               ∧ connectedIn (stones g) seed x)
       ∧ (∀ x n, x ∈ stones g → inBounds size n = true → orthogonal x n →
                 getStone stns n = EMPTY → n ∈ stones g)
       ∧ (∀ n c, surrounding g !! n = Some c →
                 c ≠ EMPTY ∧ c = getStone stns n ∧ inBounds size n = true)
       ∧ (∀ c, (∃ n, surrounding g !! n = Some c)
               ↔ bordersColor stns size seed c).
Proof.
  intros Hb He.
  destruct (getGroup_empty_seed stns size seed Hb He)
    as (g & Hg & Hl & Hseed & Hmem & Hsurr).
  pose proof (getGroup_spec _ _ _ _ Hg) as Hspec.
  exists g. split; [done|]. split; [done|]. split; [done|].
  split; [intros x; by apply getGroup_groupOf|].
  split; [|split; [|split; [done|]]].
  - intros x Hx. destruct (Hmem x Hx) as [Hxb Hxe].
    split; [done|]. split; [done|]. by eapply connected_connectedIn.
  - intros x n Hx Hn Ho Hne.
    destruct (decide (n ∈ stones g)) as [|Hout]; [done|]. exfalso.
    apply (groupSpec_maximal stns size seed g x n Hspec Hx Hn Ho Hout).
    congruence.
  - intros c. by apply surrounding_bordersColor.
Qed.

Lemma getGroup_of_empty_region_witness :
  ∃ g, getGroup (board_stones bentBoard) 3 (mkPoint 1 1) = Some g
       ∧ liberties g = 0%nat
       ∧ mkPoint 1 2 ∈ stones g
       ∧ mkPoint 2 2 ∈ stones g.
Proof.
  destruct (getGroup_of_empty_region (board_stones bentBoard) 3 (mkPoint 1 1))
    as (g & Hg & Hl & _ & Hiff & _).
  - vm_compute. reflexivity.
  - vm_compute. reflexivity.
  - assert (groupOf (board_stones bentBoard) 3 (mkPoint 1 1) (mkPoint 1 2))
      as H12.
    { apply rtc_once. split; [vm_compute; reflexivity|].
      split; [unfold orthogonal; cbn; lia|vm_compute; reflexivity]. }
    exists g. split; [exact Hg|]. split; [exact Hl|].
    split; [apply Hiff; exact H12|]. apply Hiff.
    eapply rtc_r; [exact H12|].
    split; [vm_compute; reflexivity|].
    split; [unfold orthogonal; cbn; lia|vm_compute; reflexivity].
Defined.

(** ** The score, point by point, in terms of the board *)

Lemma owner_ownsPoint stns size c p :
  c = BLACK ∨ c = WHITE →
  owner stns size p = Some c ↔ ownsPoint stns size c p.
Proof.
  intros Hc. unfold owner, ownsPoint.
  destruct (getStone stns p) eqn:He.
  - destruct (getGroup_terminates stns size p) as [g Hg]. rewrite Hg. split.
    + intros Hel. right. split; [done|].
      apply (surroundingColors_soleBorder stns size p g c Hg).
      apply elements_one_color.
      destruct (elements (surroundingColors g)) as [|c' [|c'' l]];
        try discriminate Hel.
      by injection Hel as ->.
    + intros [Hec|[_ Hsole]].
      { destruct Hc as [-> | ->]; discriminate Hec. }
      apply (surroundingColors_soleBorder stns size p g c Hg) in Hsole.
      apply elements_one_color in Hsole. by rewrite Hsole.
  - split; [intros [= <-]; by left|].
    intros [<-|[Hec _]]; [done|discriminate Hec].
  - split; [intros [= <-]; by left|].
    intros [<-|[Hec _]]; [done|discriminate Hec].
Qed.

(** X13. The score of a colour is the number of intersections of the board
    that count for it: those that hold a stone of the colour and the EMPTY
    ones in a region that this colour alone borders. [areaScore] always
    returns, the scores do not depend on the order in which the loop meets
    the regions, and every stone on the board counts for its own colour. *)
Theorem areaScore_counts_owned_points (B : Board) :
  let stns := board_stones B in
  let size := board_size B in
  ∃ (s : Score) (black white : gset Point),
    areaScore B = Some s
    ∧ score_BLACK s = Z.of_nat (base.size black)
    ∧ score_WHITE s = Z.of_nat (base.size white)
    ∧ (∀ p, p ∈ black ↔ inBounds size p = true ∧ ownsPoint stns size BLACK p)
    ∧ (∀ p, p ∈ white ↔ inBounds size p = true ∧ ownsPoint stns size WHITE p).
Proof.
  intros stns size.
  destruct (areaScore_owned_points B) as (s & Hs & HB & HW & _).
  exists s, (ownedPoints B BLACK), (ownedPoints B WHITE).
  split; [done|]. split; [done|]. split; [done|].
  split; intros p; unfold ownedPoints;
    rewrite elem_of_filter, elem_of_boardPoints, owner_ownsPoint; tauto.
Qed.

Lemma areaScore_counts_owned_points_witness :
  ∃ (s : Score) (black white : gset Point),
    areaScore wallBoard = Some s
    ∧ score_BLACK s = Z.of_nat (base.size black) ∧ score_BLACK s = 6
    ∧ score_WHITE s = Z.of_nat (base.size white) ∧ score_WHITE s = 1
    ∧ mkPoint 0 2 ∈ black ∧ mkPoint 1 1 ∈ black
    ∧ mkPoint 2 2 ∈ white
    ∧ (mkPoint 2 0 ∉ black) ∧ (mkPoint 2 0 ∉ white).
Proof.
  destruct (areaScore_counts_owned_points wallBoard)
    as (s & black & white & Hs & HB & HW & Hblack & Hwhite).
  assert (∀ c, c ≠ EMPTY →
               ¬ ownsPoint (board_stones wallBoard) 3 c (mkPoint 2 0)) as Hlow.
  { intros c Hc [Hst|[_ Hsole]].
    - vm_compute in Hst. congruence.
    - by apply (wallBoard_low_contested c). }
  exists s, black, white. split; [exact Hs|]. split; [exact HB|].
  split; [vm_compute in Hs; injection Hs as <-; reflexivity|].
  split; [exact HW|].
  split; [vm_compute in Hs; injection Hs as <-; reflexivity|].
  split.
  { apply Hblack. split; [vm_compute; reflexivity|]. right.
    split; [vm_compute; reflexivity|]. apply wallBoard_top_black. auto. }
  split.
  { apply Hblack. split; [vm_compute; reflexivity|]. left.
    vm_compute. reflexivity. }
  split.
  { apply Hwhite. split; [vm_compute; reflexivity|]. left.
    vm_compute. reflexivity. }
  split.
  - intros [_ Hin]%Hblack. by apply (Hlow BLACK).
  - intros [_ Hin]%Hwhite. by apply (Hlow WHITE).
Defined.
